(** * Keyed asynchronous resource cache: [Resource] and [createResourceGroup]

    A shallow embedding of the TypeScript class [Resource] and of the
    registry built by [createResourceGroup], together with the part of the
    JavaScript run time the class relies on: promises with their reaction
    lists and the FIFO queue of reaction jobs (microtasks).

    Objects live in stores indexed by allocation order, so that object
    identity is the index: a Resource is an index into [resources], a
    promise an index into [promises], a registry an index into [groups].
    Every operation is a total function from a world to a world and an
    outcome. *)

From Stdlib Require Import ZArith String List Lia.
From stdpp Require Import base option list gmap strings.

Open Scope nat_scope.

(** ** JavaScript values *)

Inductive value : Type :=
| VNull
| VUndefined
| VBool (b : bool)
| VNum (z : Z)
| VStr (s : string)
| VObj (o : nat)
| VPromise (p : nat)
| VResource (r : nat).

(** [v == null] holds of [null] and [undefined] only. *)
Definition nullish (v : value) : bool :=
  match v with
  | VNull | VUndefined => true
  | _ => false
  end.

(** How a call ends: [return v] or [throw v]. [Invalid] is the answer to an
    action that names an object which was never allocated; no JavaScript
    program can perform such an action. *)
Inductive outcome : Type :=
| Returned (v : value)
| Threw (v : value)
| Invalid.

(** ** Promises *)

Inductive settled : Type :=
| Fulfilled (v : value)
| Rejected (e : value).

Inductive pstate : Type :=
| Waiting
| Settled (s : settled).

(** The two callbacks [load] registers. [OnThen r child] is
    [.then((result) => { this.result = result; return result })] of Resource
    [r], [OnCatch r child] is
    [.catch((error) => { this.error = error; throw error })]; [child] is the
    promise that [.then] / [.catch] returned. *)
Inductive reaction : Type :=
| OnThen (r child : nat)
| OnCatch (r child : nat).

Definition reaction_owner (k : reaction) : nat :=
  match k with OnThen r _ | OnCatch r _ => r end.

Record Promise : Type := mkPromise {
  p_state : pstate;
  p_reactions : list reaction
}.

(** A queued reaction job: the callback and the settlement it is run with. *)
Definition job : Type := reaction * settled.

(** ** Loaders

    A loader [() => Promise<T>] is opaque to the cache. When called it
    either throws before returning, or returns a promise which is still
    waiting or already settled. Its behaviour may differ from call to call;
    [l_run l n] is what the loader does when it has been called [n] times
    before. [l_id] is the identity of the function object. A loader does
    not call back into the cache while it runs, and hands out a new promise
    on every call. *)

Inductive loader_result : Type :=
| LThrow (e : value)
| LReturn (s : pstate).

Record Loader : Type := mkLoader {
  l_id : nat;
  l_run : nat → loader_result
}.

(** ** The class [Resource] *)

Record Resource : Type := mkResource {
  error : value;            (* private error: Error | null = null *)
  promise : option nat;     (* private promise: Promise<T> | null = null *)
  result : value;           (* private result: T | null = null *)
  loader : Loader           (* private readonly loader *)
}.

(** [new Resource(loader)] *)
Definition new_Resource (l : Loader) : Resource :=
  {| error := VNull; promise := None; result := VNull; loader := l |}.

(** [this.promise] as a value: [null] or the promise object. *)
Definition promise_value (p : option nat) : value :=
  match p with
  | None => VNull
  | Some h => VPromise h
  end.

(** ** Worlds *)

(** One entry per call of a loader: which Resource called, which loader, and
    the promise the call returned ([None] when the loader threw). *)
Record Call : Type := mkCall {
  c_rid : nat;
  c_lid : nat;
  c_promise : option nat
}.

Record world : Type := mkWorld {
  resources : list Resource;
  promises : list Promise;
  jobs : list job;
  groups : list (gmap string nat);
  calls : list Call;
  console : list string
}.

Definition init : world :=
  {| resources := []; promises := []; jobs := []; groups := [];
     calls := []; console := [] |}.

Definition with_resources (w : world) (rs : list Resource) : world :=
  {| resources := rs; promises := promises w; jobs := jobs w;
     groups := groups w; calls := calls w; console := console w |}.

Definition set_result (v : value) (R : Resource) : Resource :=
  {| error := error R; promise := promise R; result := v; loader := loader R |}.

Definition set_error (e : value) (R : Resource) : Resource :=
  {| error := e; promise := promise R; result := result R; loader := loader R |}.

Definition set_promise (h : nat) (R : Resource) : Resource :=
  {| error := error R; promise := Some h; result := result R;
     loader := loader R |}.

(** Number of earlier calls of the function object [lid]. *)
Definition times_called (lid : nat) (cs : list Call) : nat :=
  length (filter (λ c, c_lid c = lid) cs).

(** Calls of the loader made by Resource [r]. *)
Definition calls_of (r : nat) (cs : list Call) : list Call :=
  filter (λ c, c_rid c = r) cs.

Definition invocations (w : world) (r : nat) : nat :=
  length (calls_of r (calls w)).

(** Queued reaction jobs that belong to Resource [r]. *)
Definition jobs_of (r : nat) (js : list job) : list job :=
  filter (λ j, reaction_owner j.1 = r) js.

(** ** Settling a promise

    A waiting promise takes the settlement, its reactions become jobs at
    the back of the queue and its reaction list is emptied. A promise that
    is already settled ignores the request. *)
Definition settle_promise (p : nat) (s : settled) (w : world) : world :=
  match promises w !! p with
  | Some (mkPromise Waiting ks) =>
      {| resources := resources w;
         promises := <[p := mkPromise (Settled s) []]> (promises w);
         jobs := jobs w ++ map (λ k, (k, s)) ks;
         groups := groups w; calls := calls w; console := console w |}
  | _ => w
  end.

(** Running one reaction job. *)
Definition run_job (j : job) (w : world) : world :=
  match j with
  | (OnThen r child, Fulfilled v) =>
      (* this.result = result; return result *)
      settle_promise child (Fulfilled v)
        (with_resources w (alter (set_result v) r (resources w)))
  | (OnThen r child, Rejected e) =>
      (* no rejection handler: the rejection passes through *)
      settle_promise child (Rejected e) w
  | (OnCatch r child, Fulfilled v) =>
      (* no fulfilment handler: the value passes through *)
      settle_promise child (Fulfilled v) w
  | (OnCatch r child, Rejected e) =>
      (* this.error = error; throw error *)
      settle_promise child (Rejected e)
        (with_resources w (alter (set_error e) r (resources w)))
  end.

(** One turn of the microtask queue. *)
Definition tick (w : world) : world :=
  match jobs w with
  | [] => w
  | j :: js =>
      run_job j
        {| resources := resources w; promises := promises w; jobs := js;
           groups := groups w; calls := calls w; console := console w |}
  end.

(** Was promise [p] handed out by a loader? Only those are settled from
    outside; the promises made by [.then] and [.catch] are settled by their
    reaction jobs alone. *)
Definition loader_made (p : nat) (cs : list Call) : bool :=
  bool_decide (Some p ∈ map c_promise cs).

Definition settle_external (p : nat) (s : settled) (w : world) : world :=
  if loader_made p (calls w) then settle_promise p s w else w.

(** ** Methods of [Resource] *)

(** [load()] *)
Definition load (r : nat) (w : world) : world * outcome :=
  match resources w !! r with
  | None => (w, Invalid)
  | Some R =>
      match promise R with
      | Some h => (w, Returned (VPromise h))
      | None =>
          let l := loader R in
          match l_run l (times_called (l_id l) (calls w)) with
          | LThrow e =>
              ({| resources := resources w; promises := promises w;
                  jobs := jobs w; groups := groups w;
                  calls := calls w ++ [mkCall r (l_id l) None];
                  console := console w |},
               Threw e)
          | LReturn st =>
              let p0 := length (promises w) in
              let p1 := S p0 in
              let p2 := S p1 in
              ({| resources := alter (set_promise p2) r (resources w);
                  promises :=
                    promises w ++
                      [ mkPromise st
                          match st with
                          | Waiting => [OnThen r p1]
                          | Settled _ => []
                          end;
                        mkPromise Waiting [OnCatch r p2];
                        mkPromise Waiting [] ];
                  jobs :=
                    jobs w ++
                      match st with
                      | Waiting => []
                      | Settled s => [(OnThen r p1, s)]
                      end;
                  groups := groups w;
                  calls := calls w ++ [mkCall r (l_id l) (Some p0)];
                  console := console w |},
               Returned (VPromise p2))
          end
      end
  end.

(** [get()]: falling off the end of the method returns [undefined]. *)
Definition get (r : nat) (w : world) : world * outcome :=
  match resources w !! r with
  | None => (w, Invalid)
  | Some R =>
      if nullish (result R) then (w, Returned VUndefined)
      else (w, Returned (result R))
  end.

(** [read()] *)
Definition read (r : nat) (w : world) : world * outcome :=
  match resources w !! r with
  | None => (w, Invalid)
  | Some R =>
      if negb (nullish (result R)) then (w, Returned (result R))
      else if negb (nullish (error R)) then (w, Threw (error R))
      else (w, Threw (promise_value (promise R)))
  end.

(** ** [createResourceGroup] *)

(** [createResourceGroup()]: a new closure over a new, empty [Map]. *)
Definition createResourceGroup (w : world) : world * nat :=
  ({| resources := resources w; promises := promises w; jobs := jobs w;
      groups := groups w ++ [∅]; calls := calls w; console := console w |},
   length (groups w)).

(** The closure [(id, loader) => ...] of registry [g]. *)
Definition group_get (g : nat) (id : string) (l : Loader) (w : world)
  : world * outcome :=
  match groups w !! g with
  | None => (w, Invalid)
  | Some tbl =>
      let out := console w ++ [id] in            (* console.log(id) *)
      match tbl !! id with
      | Some r =>
          ({| resources := resources w; promises := promises w;
              jobs := jobs w; groups := groups w; calls := calls w;
              console := out |},
           Returned (VResource r))
      | None =>
          let r := length (resources w) in
          ({| resources := resources w ++ [new_Resource l];
              promises := promises w; jobs := jobs w;
              groups := <[g := <[id := r]> tbl]> (groups w);
              calls := calls w; console := out |},
           Returned (VResource r))
      end
  end.

(** ** Programs over the cache

    Everything a client, the loader's back end and the event loop can do to
    a world, as one action each. A sequence of actions is an arbitrary
    interleaving of callers. *)

Inductive action : Type :=
| ANew (l : Loader)                          (* new Resource(l) *)
| ACreateGroup                               (* createResourceGroup() *)
| AGroupGet (g : nat) (id : string) (l : Loader)
| ALoad (r : nat)
| AGet (r : nat)
| ARead (r : nat)
| ASettle (p : nat) (s : settled)            (* a loader's promise settles *)
| ATick.                                     (* one reaction job runs *)

Definition step (a : action) (w : world) : world * outcome :=
  match a with
  | ANew l =>
      ({| resources := resources w ++ [new_Resource l];
          promises := promises w; jobs := jobs w; groups := groups w;
          calls := calls w; console := console w |},
       Returned (VResource (length (resources w))))
  | ACreateGroup =>
      let '(w', g) := createResourceGroup w in (w', Returned (VObj g))
  | AGroupGet g id l => group_get g id l w
  | ALoad r => load r w
  | AGet r => get r w
  | ARead r => read r w
  | ASettle p s => (settle_external p s w, Returned VUndefined)
  | ATick => (tick w, Returned VUndefined)
  end.

(** The world after a program. *)
Definition exec (acts : list action) (w : world) : world :=
  fold_left (λ w a, (step a w).1) acts w.

(** The outcomes of a program, one per action. *)
Fixpoint outcomes (acts : list action) (w : world) : list outcome :=
  match acts with
  | [] => []
  | a :: acts' => (step a w).2 :: outcomes acts' (step a w).1
  end.

(** ** The spec's four-state view of a Resource

    [load] allocates three promises in a row: the loader's, the one
    returned by [.then] and the one returned by [.catch], which is stored
    in the field [promise]. The success callback has run with [v] exactly
    when the [.then] promise is fulfilled with [v]; the failure callback
    has run with [e] exactly when the stored promise is rejected with
    [e]. *)

Inductive rstate : Type :=
| Unstarted
| Pending
| Resolved (v : value)
| Failed (e : value).

Definition pstate_at (w : world) (p : nat) : pstate :=
  match promises w !! p with
  | Some P => p_state P
  | None => Waiting
  end.

Definition state_of (w : world) (R : Resource) : rstate :=
  match promise R with
  | None => Unstarted
  | Some h =>
      match pstate_at w h with
      | Settled (Rejected e) => Failed e
      | _ =>
          match pstate_at w (h - 1) with
          | Settled (Fulfilled v) => Resolved v
          | _ => Pending
          end
      end
  end.

(** ** The invariant of reachable worlds

    A started Resource owns a chain of three promises. The chain is always in
    one of four stages; the stage fixes the three promises, the Resource's
    queued job and its fields [result] and [error]. *)

Inductive stage : Type :=
| StWaiting                (* the loader's promise is waiting *)
| StSettled (s : settled)  (* it settled; the [.then] job is queued *)
| StThenDone (s : settled) (* the [.then] job ran; the [.catch] job is queued *)
| StDone (s : settled).    (* the [.catch] job ran *)

Definition expected_p0 (r p0 : nat) (st : stage) : Promise :=
  match st with
  | StWaiting => mkPromise Waiting [OnThen r (S p0)]
  | StSettled s | StThenDone s | StDone s => mkPromise (Settled s) []
  end.

Definition expected_p1 (r p0 : nat) (st : stage) : Promise :=
  match st with
  | StWaiting | StSettled _ => mkPromise Waiting [OnCatch r (S (S p0))]
  | StThenDone s | StDone s => mkPromise (Settled s) []
  end.

Definition expected_p2 (st : stage) : Promise :=
  match st with
  | StDone s => mkPromise (Settled s) []
  | _ => mkPromise Waiting []
  end.

Definition expected_jobs (r p0 : nat) (st : stage) : list job :=
  match st with
  | StSettled s => [(OnThen r (S p0), s)]
  | StThenDone s => [(OnCatch r (S (S p0)), s)]
  | StWaiting | StDone _ => []
  end.

Definition expected_result (st : stage) : value :=
  match st with
  | StThenDone (Fulfilled v) | StDone (Fulfilled v) => v
  | _ => VNull
  end.

Definition expected_error (st : stage) : value :=
  match st with
  | StDone (Rejected e) => e
  | _ => VNull
  end.

Definition chain_ok (w : world) (r : nat) (R : Resource) (p0 : nat)
    (st : stage) : Prop :=
  promises w !! p0 = Some (expected_p0 r p0 st) ∧
  promises w !! S p0 = Some (expected_p1 r p0 st) ∧
  promises w !! S (S p0) = Some (expected_p2 st) ∧
  jobs_of r (jobs w) = expected_jobs r p0 st ∧
  result R = expected_result st ∧
  error R = expected_error st.

(** A logged call of Resource [r]'s loader [l] that threw: the loader does
    throw on some call. *)
Definition thrown_call (l : Loader) (r : nat) (c : Call) : Prop :=
  c = mkCall r (l_id l) None ∧ ∃ n e, l_run l n = LThrow e.

Definition unstarted_ok (w : world) (r : nat) (R : Resource) : Prop :=
  Forall (thrown_call (loader R) r) (calls_of r (calls w)) ∧
  jobs_of r (jobs w) = [] ∧
  result R = VNull ∧
  error R = VNull.

(** The calls logged for a started Resource: calls that threw, then the one
    call that returned the loader's promise [p0]. *)
Definition calls_ok (w : world) (r : nat) (R : Resource) (p0 : nat) : Prop :=
  ∃ thrown,
    calls_of r (calls w) = thrown ++ [mkCall r (l_id (loader R)) (Some p0)] ∧
    Forall (thrown_call (loader R) r) thrown.

Definition started_ok (w : world) (r : nat) (R : Resource) (h : nat) : Prop :=
  ∃ p0 st, h = S (S p0) ∧ calls_ok w r R p0 ∧ chain_ok w r R p0 st.

Definition res_ok (w : world) (r : nat) : Prop :=
  match resources w !! r with
  | None => calls_of r (calls w) = [] ∧ jobs_of r (jobs w) = []
  | Some R =>
      match promise R with
      | None => unstarted_ok w r R
      | Some h => started_ok w r R h
      end
  end.

(** The chains of two Resources do not overlap. *)
Definition chains_apart (w : world) : Prop :=
  ∀ r r' R R' h h',
    r ≠ r' →
    resources w !! r = Some R → resources w !! r' = Some R' →
    promise R = Some h → promise R' = Some h' →
    h + 3 ≤ h' ∨ h' + 3 ≤ h.

(** A registry only holds Resources that exist. *)
Definition groups_ok (w : world) : Prop :=
  ∀ g tbl id r,
    groups w !! g = Some tbl → tbl !! id = Some r → r < length (resources w).

Record wf (w : world) : Prop := mkWf {
  wf_res : ∀ r, res_ok w r;
  wf_apart : chains_apart w;
  wf_groups : groups_ok w
}.

Definition stage_of_pstate (st : pstate) : stage :=
  match st with
  | Waiting => StWaiting
  | Settled s => StSettled s
  end.

Definition stage_le (st st' : stage) : Prop :=
  match st with
  | StWaiting => True
  | StSettled s => st' = StSettled s ∨ st' = StThenDone s ∨ st' = StDone s
  | StThenDone s => st' = StThenDone s ∨ st' = StDone s
  | StDone s => st' = StDone s
  end.

(** The spec's state, read off the stage. *)
Definition stage_state (st : stage) : rstate :=
  match st with
  | StWaiting | StSettled _ | StThenDone (Rejected _) => Pending
  | StThenDone (Fulfilled v) | StDone (Fulfilled v) => Resolved v
  | StDone (Rejected e) => Failed e
  end.

(** ** Vocabulary of the statements *)

(** The promise the loader returned to Resource [r], from the call log. *)
Definition loader_promise (w : world) (r : nat) : option nat :=
  c ← last (calls_of r (calls w)); c_promise c.

(** The handle [h] yields [v]: it is fulfilled with [v], or it is waiting
    and the job that fulfils it with [v] is in the queue. *)
Definition yields (w : world) (h : nat) (v : value) : Prop :=
  pstate_at w h = Settled (Fulfilled v) ∨
  (pstate_at w h = Waiting ∧ ∃ r, (OnCatch r h, Fulfilled v) ∈ jobs w).

Definition is_load (a : action) : bool :=
  match a with ALoad _ => true | _ => false end.

(** The loader an action brings into the world, if any. *)
Definition supplied (a : action) : option Loader :=
  match a with
  | ANew l | AGroupGet _ _ l => Some l
  | _ => None
  end.

(** No Resource holds a loader whose identity is [lid]. *)
Definition unheld (lid : nat) (w : world) : Prop :=
  ∀ r R, resources w !! r = Some R → l_id (loader R) ≠ lid.

(** The action does not bring a loader of identity [lid] into the world. *)
Definition brings_not (lid : nat) (a : action) : Prop :=
  ∀ l, supplied a = Some l → l_id l ≠ lid.

(** The loader returns a promise on every call: it never throws before
    returning. *)
Definition returns_promise (l : Loader) : Prop :=
  ∀ n, ∃ st, l_run l n = LReturn st.

(** ** Loaders used as examples *)

Definition fails_with (e : value) : Loader :=
  {| l_id := 1; l_run := λ _, LReturn (Settled (Rejected e)) |}.

Definition pending_loader : Loader :=
  {| l_id := 2; l_run := λ _, LReturn Waiting |}.

Definition resolves_with (v : value) : Loader :=
  {| l_id := 3; l_run := λ _, LReturn (Settled (Fulfilled v)) |}.

Definition throws_once (e : value) : Loader :=
  {| l_id := 4;
     l_run := λ n, match n with
                   | 0 => LThrow e
                   | S _ => LReturn Waiting
                   end |}.

Definition other_loader : Loader :=
  {| l_id := 5; l_run := λ _, LReturn (Settled (Fulfilled (VStr "B"))) |}.

(** ** The life cycle of a Resource *)

(** What one action may do to the state of a Resource. *)
Definition state_step (s s' : rstate) : Prop :=
  match s with
  | Unstarted => s' = Unstarted ∨ s' = Pending
  | Pending => s' ≠ Unstarted
  | Resolved v => s' = Resolved v
  | Failed e => s' = Failed e
  end.

(** What a program may do to it. *)
Definition state_le (s s' : rstate) : Prop :=
  match s with
  | Unstarted => True
  | Pending => s' ≠ Unstarted
  | Resolved v => s' = Resolved v
  | Failed e => s' = Failed e
  end.

(** ** Work left in the job queue

    A [.then] job stands for two steps, itself and the [.catch] job it will
    queue; a [.catch] job for one. *)

Definition job_work (j : job) : nat :=
  match j.1 with
  | OnThen _ _ => 2
  | OnCatch _ _ => 1
  end.

Definition work (js : list job) : nat :=
  foldr (λ j n, job_work j + n) 0 js.

(** The terminal state that goes with a settlement. *)
Definition terminal (s : settled) : rstate :=
  match s with
  | Fulfilled v => Resolved v
  | Rejected e => Failed e
  end.

(** Does the action settle the loader's promise [p]? *)
Definition is_settle_of (p : nat) (a : action) : bool :=
  match a with
  | ASettle q _ => bool_decide (q = p)
  | _ => false
  end.

(** No Resource is filed twice: not under two keys, not in two
    registries. *)
Definition groups_inj (w : world) : Prop :=
  ∀ g1 g2 (t1 t2 : gmap string nat) k1 k2 r,
    groups w !! g1 = Some t1 → t1 !! k1 = Some r →
    groups w !! g2 = Some t2 → t2 !! k2 = Some r →
    g1 = g2 ∧ k1 = k2.

(** * [viewStageMachine]: the transition [PARAMETER.COMMIT]

    The context of the machine holds the list [parameters] of plain
    objects. A plain object is the finite map of its own properties. *)

(** [a === b] on the values above is equality: numbers are integers here,
    objects are compared by reference. *)
#[global] Instance value_eq_dec : EqDecision value.
Proof. solve_decision. Defined.

(** [o.k]: a property that is not there reads as [undefined]. *)
Definition prop (o : gmap string value) (k : string) : value :=
  default VUndefined (o !! k).

(** [{ ...parameter, ...e.parameter, ref: parameter.ref }]: later spreads
    win over earlier ones, and [ref] is written last. *)
Definition merge_parameter (parameter e_parameter : gmap string value)
  : gmap string value :=
  <["ref" := prop parameter "ref"]> (e_parameter ∪ parameter).

(** The assigner of [PARAMETER.COMMIT]: the new value of
    [ctx.parameters], given the old one and [e.parameter]. *)
Definition parameter_commit (parameters : list (gmap string value))
    (e_parameter : gmap string value) : list (gmap string value) :=
  (λ parameter,
     if decide (prop parameter "id" = prop e_parameter "id")
     then merge_parameter parameter e_parameter
     else parameter) <$> parameters.

(** * [ColorModal/utils]: validation of what the JSON editor hands in

    The editor's input is an arbitrary JSON-like value. Numbers are kept
    abstract, in a type [num]; the one thing asked of a number here is
    whether it is falsy ([0] or [NaN]). An object is the list of its
    properties; a key is looked up from the front. *)

#[warnings="-register-all"]
Inductive json (num : Type) : Type :=
| JNull
| JUndefined
| JBool (b : bool)
| JNum (n : num)
| JStr (s : string)
| JArr (xs : list (json num))
| JObj (fields : list (string * json num)).

Arguments JNull {num}.
Arguments JUndefined {num}.
Arguments JBool {num} b.
Arguments JNum {num} n.
Arguments JStr {num} s.
Arguments JArr {num} xs.
Arguments JObj {num} fields.

(** [isString], [isObject] and [isBoolean]. [typeof v === "object"] holds
    of arrays as well, and of [null], which [v != null] rules out. *)
Definition isString {num} (v : json num) : bool :=
  match v with JStr _ => true | _ => false end.

Definition isObject {num} (v : json num) : bool :=
  match v with JArr _ | JObj _ => true | _ => false end.

Definition isBoolean {num} (v : json num) : bool :=
  match v with JBool _ => true | _ => false end.

(** The boolean a value is coerced to. *)
Definition truthy {num} (falsy_num : num → bool) (v : json num) : bool :=
  match v with
  | JNull | JUndefined => false
  | JBool b => b
  | JNum n => negb (falsy_num n)
  | JStr s => negb (bool_decide (s = ""))
  | JArr _ | JObj _ => true
  end.

Fixpoint assoc {A} (k : string) (fields : list (string * A)) : option A :=
  match fields with
  | [] => None
  | (k', v) :: rest => if decide (k' = k) then Some v else assoc k rest
  end.

(** [v[k]], for a key [k] that is neither an index nor ["length"]: a
    property that is not there, and any property of an array, a string, a
    number or a boolean, reads as [undefined]. The functions below read a
    property only of a value that is neither [null] nor [undefined]. *)
Definition member {num} (v : json num) (k : string) : json num :=
  match v with
  | JObj fields => default JUndefined (assoc k fields)
  | _ => JUndefined
  end.

(** [a ?? b] *)
Definition coalesce {num} (a b : json num) : json num :=
  match a with
  | JNull | JUndefined => b
  | _ => a
  end.

(** The test of the filter in [getValidLabelColors]. *)
Definition valid_label_color {num} (falsy_num : num → bool) (x : json num)
  : bool :=
  truthy falsy_num x && isObject x && isString (member x "value")
  && negb (match member x "value" with
           | JStr s => bool_decide (s = "")
           | _ => false
           end)
  && isString (member x "color").

Definition getValidLabelColors {num} (falsy_num : num → bool)
    (labelColors : list (json num)) : list (json num) :=
  List.filter (valid_label_color falsy_num) labelColors.

(** [validateLabelTags]. Falling off the end of the function returns
    [undefined]. *)
Definition validateLabelTags {num} (falsy_num : num → bool) (obj : json num)
  : json num :=
  match obj with
  | JArr _ | JObj _ =>
      let fieldColor := coalesce (member obj "fieldColor") JNull in
      let valueColors :=
        match member obj "valueColors" with
        | JArr xs => getValidLabelColors falsy_num xs
        | _ => []
        end in
      if truthy falsy_num fieldColor || (0 <? length valueColors)
      then JObj [("fieldColor", fieldColor); ("valueColors", JArr valueColors)]
      else JNull
  | _ => JUndefined
  end.

(** The test of the filter in [getValidMaskColors];
    [typeof Number(...) == "number"] holds of every argument. *)
Definition valid_mask_color {num} (falsy_num : num → bool) (x : json num)
  : bool :=
  truthy falsy_num x && isObject x && isString (member x "idx")
  && true
  && isString (member x "color").

(** [getValidMaskColors], given the conversion [Number]. *)
Definition getValidMaskColors {num} (falsy_num : num → bool)
    (Number : json num → num) (maskColors : list (json num))
  : list (json num) :=
  List.map
    (λ y, JObj [("idx", JNum (Number (member y "idx")));
                ("color", member y "color")])
    (List.filter (valid_mask_color falsy_num) maskColors).

(** [validateMaskColor] *)
Definition validateMaskColor {num} (falsy_num : num → bool)
    (Number : json num → num) (arr : json num) : json num :=
  match arr with
  | JArr xs => JArr (getValidMaskColors falsy_num Number xs)
  | _ => JNull
  end.

(** What the functions below take from outside this file: the conversion
    [Number] and the two comparisons [x <= 1] and [x >= 0] on numbers,
    [isValidColor] of [@fiftyone/looker], [colorString.get.rgb], which gives
    the channels of a colour or [null], and the text of a number inside a
    template string. *)
Record Externals (num : Type) : Type := mkExternals {
  falsy_num : num → bool;
  Number : json num → num;
  le_one : num → bool;
  ge_zero : num → bool;
  isValidColor : json num → bool;
  get_rgb : json num → option (num * num * num);
  show_num : num → string
}.

Arguments falsy_num {num} _ _.
Arguments Number {num} _ _.
Arguments le_one {num} _ _.
Arguments ge_zero {num} _ _.
Arguments isValidColor {num} _ _.
Arguments get_rgb {num} _ _.
Arguments show_num {num} _ _.

(** A computation that returns or throws a [TypeError]. *)
Inductive attempt (A : Type) : Type :=
| Done (a : A)
| TypeError.

Arguments Done {A} a.
Arguments TypeError {A}.

Definition and_then {A B} (x : attempt A) (f : A → attempt B) : attempt B :=
  match x with
  | Done a => f a
  | TypeError => TypeError
  end.

(** [xs.filter(f)] and [xs.map(f)] with a callback that may throw: the
    elements are visited from the front and the first throw ends the
    call. *)
Fixpoint filter_attempt {A} (f : A → attempt bool) (xs : list A)
  : attempt (list A) :=
  match xs with
  | [] => Done []
  | x :: rest =>
      and_then (f x) (λ keep,
      and_then (filter_attempt f rest) (λ rest',
      Done (if keep then x :: rest' else rest')))
  end.

Fixpoint map_attempt {A B} (f : A → attempt B) (xs : list A)
  : attempt (list B) :=
  match xs with
  | [] => Done []
  | x :: rest =>
      and_then (f x) (λ y,
      and_then (map_attempt f rest) (λ rest', Done (y :: rest')))
  end.

Definition namedColorScales : list string :=
  ["aggrnyl"; "agsunset"; "blackbody"; "bluered"; "blues"; "blugrn"; "bluyl";
   "brwnyl"; "bugn"; "bupu"; "burg"; "burgyl"; "cividis"; "darkmint";
   "electric"; "emrld"; "gnbu"; "greens"; "greys"; "hot"; "inferno"; "jet";
   "magenta"; "magma"; "mint"; "orrd"; "oranges"; "oryel"; "peach"; "pinkyl";
   "plasma"; "plotly3"; "pubu"; "pubugn"; "purd"; "purp"; "purples"; "purpor";
   "rainbow"; "rdbu"; "rdpu"; "redor"; "reds"; "sunset"; "sunsetdark"; "teal";
   "tealgrn"; "turbo"; "viridis"; "ylgn"; "ylgnbu"; "ylorbr"; "ylorrd";
   "algae"; "amp"; "deep"; "dense"; "gray"; "haline"; "ice"; "matter";
   "solar"; "speed"; "tempo"; "thermal"; "turbid"; "armyrose"; "brbg";
   "earth"; "fall"; "geyser"; "prgn"; "piyg"; "picnic"; "portland"; "puor";
   "rdgy"; "rdylbu"; "rdylgn"; "spectral"; "tealrose"; "temps"; "tropic";
   "balance"; "curl"; "delta"; "oxy"; "edge"; "hsv"; "icefire"; "phase";
   "twilight"; "mrybm"; "mygbm"].

(** [typeof v === "object"]: [null] counts. *)
Definition typeof_object {num} (v : json num) : bool :=
  match v with JNull | JArr _ | JObj _ => true | _ => false end.

(** [v.k] where [v] may be [null] or [undefined]: reading a property of
    those throws. *)
Definition member_of {num} (v : json num) (k : string) : attempt (json num) :=
  match v with
  | JNull | JUndefined => TypeError
  | _ => Done (member v k)
  end.

(** The test of the filter in [getValidColorscale]. *)
Definition valid_sample {num} (ext : Externals num) (sample : json num)
  : attempt bool :=
  if typeof_object sample then
    and_then (member_of sample "value") (λ value,
      if true && le_one ext (Number ext value) &&
         ge_zero ext (Number ext value)
      then and_then (member_of sample "color") (λ color,
             Done (isValidColor ext color))
      else Done false)
  else Done false.

(** The callback of the map in [getValidColorscale]: indexing the [null]
    that [colorString.get.rgb] may return throws. *)
Definition convert_sample {num} (ext : Externals num) (x : json num)
  : attempt (json num) :=
  match get_rgb ext (member x "color") with
  | None => TypeError
  | Some (r, g, b) =>
      Done (JObj [("value", JNum (Number ext (member x "value")));
                  ("color",
                   JStr ("rgb(" ++ show_num ext r ++ ", " ++ show_num ext g
                         ++ ", " ++ show_num ext b ++ ")")%string)])
  end.

Definition getValidColorscale {num} (ext : Externals num)
    (arr : list (json num)) : attempt (list (json num)) :=
  and_then (filter_attempt (valid_sample ext) arr) (λ r,
  map_attempt (convert_sample ext) r).

(** [validateColorscale] *)
Definition validateColorscale {num} (ext : Externals num) (obj : json num)
  : attempt (json num) :=
  if negb (typeof_object obj)
  then Done (JObj [("name", JNull); ("list", JNull)])
  else
    and_then (member_of obj "name") (λ name,
    let name' :=
      match name with
      | JStr s => if bool_decide (s ∈ namedColorScales) then name else JNull
      | _ => JNull
      end in
    and_then (member_of obj "list") (λ list,
    and_then
      match list with
      | JArr xs => and_then (getValidColorscale ext xs) (λ ys, Done (JArr ys))
      | _ => Done JNull
      end (λ list',
    Done (JObj [("name", name'); ("list", list')])))).

(** The callback of the map in [validateJSONSetting]. Of the properties of
    the object it builds only [colorscale], the last one, can throw. *)
Definition validate_field {num} (ext : Externals num) (input : json num)
  : attempt (json num) :=
  and_then (validateColorscale ext (member input "colorscale")) (λ colorscale,
  Done (JObj
    [("path", member input "path");
     ("fieldColor", coalesce (member input "fieldColor") JNull);
     ("colorByAttribute",
      if isString (member input "colorByAttribute")
      then member input "colorByAttribute" else JNull);
     ("valueColors",
      match member input "valueColors" with
      | JArr xs => JArr (getValidLabelColors (falsy_num ext) xs)
      | _ => JArr []
      end);
     ("targetMasksColors",
      match member input "maskTargetsColors" with
      | JArr xs => JArr (getValidMaskColors (falsy_num ext) (Number ext) xs)
      | _ => JArr []
      end);
     ("colorscale", colorscale)])).

(** The length of an array, [0] for anything else. *)
Definition array_length {num} (v : json num) : nat :=
  match v with JArr xs => length xs | _ => 0 end.

(** The test of the last filter in [validateJSONSetting]. *)
Definition has_setting {num} (ext : Externals num) (x : json num) : bool :=
  truthy (falsy_num ext) (member x "fieldColor")
  || truthy (falsy_num ext) (member x "colorByAttribute")
  || (0 <? array_length (member x "valueColors"))
  || ((0 <? array_length (member (member x "colorscale") "list"))
      || truthy (falsy_num ext) (member (member x "colorscale") "name"))
  || (0 <? array_length (member x "targetMasksColors")).

(** [validateJSONSetting]. [json?.filter(...) || []] is the empty list for
    [null] and [undefined], and throws for a value that is not an array,
    which has no method [filter]. *)
Definition validateJSONSetting {num} (ext : Externals num)
    (fields : json num) : attempt (list (json num)) :=
  and_then
    match fields with
    | JNull | JUndefined => Done []
    | JArr xs =>
        Done (List.filter
                (λ s, truthy (falsy_num ext) s && isObject s
                      && isString (member s "path")) xs)
    | _ => TypeError
    end (λ filtered,
  and_then (map_attempt (validate_field ext) filtered) (λ f,
  Done (List.filter (has_setting ext) f))).

(** Externals used in examples: integers for numbers. *)
Definition demo_ext : Externals Z :=
  {| falsy_num := Z.eqb 0;
     Number := λ v, match v with JNum n => n | _ => 0%Z end;
     le_one := λ n, (n <=? 1)%Z;
     ge_zero := λ n, (0 <=? n)%Z;
     isValidColor := isString;
     get_rgb := λ _, Some (0, 0, 0)%Z;
     show_num := λ _, "0" |}.

(** The objects [validateJSONSetting] builds. *)
Definition field_setting {num} (p : string) (fc cba : json num)
    (vs ms : list (json num)) (cs : json num) : json num :=
  JObj [("path", JStr p); ("fieldColor", fc); ("colorByAttribute", cba);
        ("valueColors", JArr vs); ("targetMasksColors", JArr ms);
        ("colorscale", cs)].

(** The result of the first filter in [validateJSONSetting]. *)
Definition first_filter {num} (ext : Externals num) (fields : json num)
  : list (json num) :=
  match fields with
  | JArr xs =>
      List.filter
        (λ s, truthy (falsy_num ext) s && isObject s
              && isString (member s "path")) xs
  | _ => []
  end.

(** * Proofs *)

(** ** Basic facts *)

Lemma calls_of_app r cs cs' :
  calls_of r (cs ++ cs') = calls_of r cs ++ calls_of r cs'.
Proof. apply filter_app. Qed.

Lemma jobs_of_app r js js' :
  jobs_of r (js ++ js') = jobs_of r js ++ jobs_of r js'.
Proof. apply filter_app. Qed.

Lemma calls_of_one_eq r l op : calls_of r [mkCall r l op] = [mkCall r l op].
Proof. unfold calls_of. rewrite filter_cons. simpl. by case_decide. Qed.

Lemma calls_of_one_ne r r' l op : r ≠ r' → calls_of r' [mkCall r l op] = [].
Proof.
  intros Hne. unfold calls_of. rewrite filter_cons. simpl.
  case_decide; [congruence | done].
Qed.

Lemma jobs_of_one_eq k s : jobs_of (reaction_owner k) [(k, s)] = [(k, s)].
Proof. unfold jobs_of. rewrite filter_cons. simpl. by case_decide. Qed.

Lemma jobs_of_one_ne r k s : reaction_owner k ≠ r → jobs_of r [(k, s)] = [].
Proof.
  intros Hne. unfold jobs_of. rewrite filter_cons. simpl.
  case_decide; [congruence | done].
Qed.

Lemma jobs_of_cons_eq k s js :
  jobs_of (reaction_owner k) ((k, s) :: js) =
  (k, s) :: jobs_of (reaction_owner k) js.
Proof. unfold jobs_of. rewrite filter_cons. simpl. by case_decide. Qed.

Lemma jobs_of_cons_ne r k s js :
  reaction_owner k ≠ r → jobs_of r ((k, s) :: js) = jobs_of r js.
Proof.
  intros Hne. unfold jobs_of. rewrite filter_cons. simpl.
  case_decide; [congruence | done].
Qed.

Lemma jobs_of_elem r j js : j ∈ jobs_of r js → j ∈ js.
Proof. unfold jobs_of. intros H. by apply list_elem_of_filter in H as [_ H]. Qed.

Lemma pstate_at_lookup w p P :
  promises w !! p = Some P → pstate_at w p = p_state P.
Proof. intros H. unfold pstate_at. by rewrite H. Qed.

Lemma exec_app acts acts' w : exec (acts ++ acts') w = exec acts' (exec acts w).
Proof. unfold exec. apply fold_left_app. Qed.

Lemma exec_cons a acts w : exec (a :: acts) w = exec acts (step a w).1.
Proof. done. Qed.

Lemma exec_snoc acts a w : exec (acts ++ [a]) w = (step a (exec acts w)).1.
Proof. by rewrite exec_app. Qed.

Lemma exec_take_S acts w i a :
  acts !! i = Some a →
  exec (take (S i) acts) w = (step a (exec (take i acts) w)).1.
Proof. intros Hi. by rewrite (take_S_r _ _ _ Hi), exec_snoc. Qed.

Lemma exec_take_load acts w i r :
  acts !! i = Some (ALoad r) →
  exec (take (S i) acts) w = (load r (exec (take i acts) w)).1.
Proof. apply exec_take_S. Qed.

Lemma exec_take_le acts w k k' :
  k ≤ k' →
  exec (take k' acts) w = exec (drop k (take k' acts)) (exec (take k acts) w).
Proof.
  intros Hle. rewrite <- exec_app.
  replace (take k acts) with (take k (take k' acts)).
  - by rewrite take_drop.
  - rewrite take_take. f_equal. lia.
Qed.

Lemma outcomes_lookup acts w i a :
  acts !! i = Some a →
  outcomes acts w !! i = Some (step a (exec (take i acts) w)).2.
Proof.
  revert w i. induction acts as [|a0 acts IH]; intros w i Hi; [done|].
  destruct i as [|i]; simpl in *.
  - by simplify_eq.
  - by apply IH.
Qed.

Lemma outcomes_lookup_load acts w i r :
  acts !! i = Some (ALoad r) →
  outcomes acts w !! i = Some (load r (exec (take i acts) w)).2.
Proof. apply outcomes_lookup. Qed.

Lemma get_world r w : (get r w).1 = w.
Proof.
  unfold get. destruct (resources w !! r) as [R|]; [|done].
  by destruct (nullish (result R)).
Qed.

Lemma read_world r w : (read r w).1 = w.
Proof.
  unfold read. destruct (resources w !! r) as [R|]; [|done].
  destruct (nullish (result R)); [|done].
  by destruct (nullish (error R)).
Qed.

Lemma read_eval r w R :
  resources w !! r = Some R →
  read r w =
    (w, if negb (nullish (result R)) then Returned (result R)
        else if negb (nullish (error R)) then Threw (error R)
        else Threw (promise_value (promise R))).
Proof.
  intros HR. unfold read. rewrite HR.
  destruct (nullish (result R)); [|done]. by destruct (nullish (error R)).
Qed.

Lemma get_eval r w R :
  resources w !! r = Some R →
  get r w =
    (w, if nullish (result R) then Returned VUndefined
        else Returned (result R)).
Proof. intros HR. unfold get. rewrite HR. by destruct (nullish (result R)). Qed.

Lemma load_started r w R h :
  resources w !! r = Some R → promise R = Some h →
  load r w = (w, Returned (VPromise h)).
Proof. intros HR Hh. unfold load. by rewrite HR, Hh. Qed.

Lemma settle_promise_waiting w p s ks :
  promises w !! p = Some (mkPromise Waiting ks) →
  settle_promise p s w =
    {| resources := resources w;
       promises := <[p := mkPromise (Settled s) []]> (promises w);
       jobs := jobs w ++ map (λ k, (k, s)) ks;
       groups := groups w; calls := calls w; console := console w |}.
Proof. intros H. unfold settle_promise. by rewrite H. Qed.

Lemma settle_promise_settled w p s s' ks :
  promises w !! p = Some (mkPromise (Settled s') ks) →
  settle_promise p s w = w.
Proof. intros H. unfold settle_promise. by rewrite H. Qed.

(** ** The invariant is preserved *)

Lemma wf_init : wf init.
Proof.
  split.
  - intros r. unfold res_ok. by destruct r.
  - intros r r' R R' h h' _ Hr. by destruct r.
  - intros g tbl id r Hg. by destruct g.
Qed.

(** Whatever in the world a Resource's part of the invariant reads, and
    nothing more: worlds that agree on it agree on [res_ok]. *)
Lemma chain_ok_frame w w' r R p0 st :
  (∀ p, p0 ≤ p ≤ S (S p0) → promises w' !! p = promises w !! p) →
  jobs_of r (jobs w') = jobs_of r (jobs w) →
  chain_ok w r R p0 st → chain_ok w' r R p0 st.
Proof.
  intros Hp Hj (H0 & H1 & H2 & H3 & H4 & H5).
  unfold chain_ok. rewrite !Hp, Hj by lia. done.
Qed.

Lemma res_ok_frame w w' r :
  resources w' !! r = resources w !! r →
  calls_of r (calls w') = calls_of r (calls w) →
  jobs_of r (jobs w') = jobs_of r (jobs w) →
  (∀ R h p, resources w !! r = Some R → promise R = Some h →
     h - 2 ≤ p ≤ h → promises w' !! p = promises w !! p) →
  res_ok w r → res_ok w' r.
Proof.
  intros Hr Hc Hj Hp. unfold res_ok. rewrite Hr.
  destruct (resources w !! r) as [R|] eqn:HR; [|by rewrite Hc, Hj].
  destruct (promise R) as [h|] eqn:Hh.
  - intros (p0 & st & -> & Hcalls & Hchain).
    exists p0, st. unfold calls_ok. rewrite Hc. do 2 (split; [done|]).
    eapply chain_ok_frame; [| done | done].
    intros p Hle. eapply Hp; [done | done | lia].
  - unfold unstarted_ok. by rewrite Hc, Hj.
Qed.

Lemma started_inv w r R h :
  wf w → resources w !! r = Some R → promise R = Some h →
  started_ok w r R h.
Proof.
  intros [Hres _ _] HR Hh. specialize (Hres r). unfold res_ok in Hres.
  by rewrite HR, Hh in Hres.
Qed.

Lemma unstarted_inv w r R :
  wf w → resources w !! r = Some R → promise R = None →
  unstarted_ok w r R.
Proof.
  intros [Hres _ _] HR Hh. specialize (Hres r). unfold res_ok in Hres.
  by rewrite HR, Hh in Hres.
Qed.

Lemma handle_bounds w r R h :
  wf w → resources w !! r = Some R → promise R = Some h →
  2 ≤ h ∧ h < length (promises w).
Proof.
  intros Hwf HR Hh.
  destruct (started_inv w r R h Hwf HR Hh)
    as (p0 & st & -> & _ & _ & _ & H2 & _).
  apply lookup_lt_Some in H2. lia.
Qed.

Lemma wf_same w w' :
  resources w' = resources w → promises w' = promises w →
  jobs w' = jobs w → calls w' = calls w → groups_ok w' →
  wf w → wf w'.
Proof.
  intros Hr Hp Hj Hc Hg [Hres Hap _]. split; [| | done].
  - intros r. apply (res_ok_frame w); [by rewrite Hr | by rewrite Hc
      | by rewrite Hj | by intros; rewrite Hp | done].
  - unfold chains_apart. rewrite Hr. apply Hap.
Qed.

Lemma wf_alloc w l gs out :
  (∀ g (tbl : gmap string nat) id r,
     gs !! g = Some tbl → tbl !! id = Some r → r < S (length (resources w))) →
  wf w →
  wf {| resources := resources w ++ [new_Resource l];
        promises := promises w; jobs := jobs w; groups := gs;
        calls := calls w; console := out |}.
Proof.
  intros Hgs [Hres Hap _]. split.
  - intros r. destruct (decide (r = length (resources w))) as [->|Hne].
    + specialize (Hres (length (resources w))). unfold res_ok in *.
      rewrite lookup_ge_None_2 in Hres by lia. destruct Hres as [Hc Hj].
      simpl. rewrite list_lookup_middle by done. simpl.
      unfold unstarted_ok. simpl. by rewrite Hc, Hj.
    + apply (res_ok_frame w); try done. simpl.
      destruct (decide (r < length (resources w))).
      * by apply lookup_app_l.
      * rewrite !lookup_ge_None_2; [done | lia |].
        rewrite length_app. simpl. lia.
  - intros r r' R R' h h' Hne HR HR' Hh Hh'. simpl in HR, HR'.
    apply lookup_app_Some in HR as [HR|[_ HR]];
      [| apply list_lookup_singleton_Some in HR as [_ <-]; done].
    apply lookup_app_Some in HR' as [HR'|[_ HR']];
      [| apply list_lookup_singleton_Some in HR' as [_ <-]; done].
    by apply (Hap r r' R R').
  - intros g tbl id r Hg Hid. simpl in *. rewrite length_app. simpl.
    specialize (Hgs g tbl id r Hg Hid). lia.
Qed.

Lemma wf_load_throw w r R :
  resources w !! r = Some R → promise R = None →
  (∃ n e, l_run (loader R) n = LThrow e) →
  wf w →
  wf {| resources := resources w; promises := promises w; jobs := jobs w;
        groups := groups w;
        calls := calls w ++ [mkCall r (l_id (loader R)) None];
        console := console w |}.
Proof.
  intros HR Hh Hthrow [Hres Hap Hg]. split; [| done | done].
  intros r'. destruct (decide (r' = r)) as [->|Hne].
  - specialize (Hres r). unfold res_ok in *. simpl. rewrite HR, Hh in *.
    destruct Hres as (Hc & Hj & Hr & He). unfold unstarted_ok. simpl.
    rewrite calls_of_app, calls_of_one_eq. split; [| done].
    apply Forall_app. split; [done|]. apply Forall_singleton. by split.
  - apply (res_ok_frame w); try done. simpl.
    rewrite calls_of_app, calls_of_one_ne by done. by rewrite app_nil_r.
Qed.

Lemma wf_load_return w r R st :
  resources w !! r = Some R → promise R = None →
  wf w →
  wf {| resources :=
          alter (set_promise (S (S (length (promises w))))) r (resources w);
        promises :=
          promises w ++
            [ mkPromise st
                match st with
                | Waiting => [OnThen r (S (length (promises w)))]
                | Settled _ => []
                end;
              mkPromise Waiting [OnCatch r (S (S (length (promises w))))];
              mkPromise Waiting [] ];
        jobs :=
          jobs w ++
            match st with
            | Waiting => []
            | Settled s => [(OnThen r (S (length (promises w))), s)]
            end;
        groups := groups w;
        calls := calls w ++ [mkCall r (l_id (loader R)) (Some (length (promises w)))];
        console := console w |}.
Proof.
  intros HR Hh Hwf. pose proof Hwf as [Hres Hap Hg].
  set (p0 := length (promises w)).
  split.
  - intros r'. destruct (decide (r' = r)) as [->|Hne].
    + destruct (unstarted_inv w r R Hwf HR Hh) as (Hc & Hj & Hr & He).
      unfold res_ok. simpl. rewrite list_lookup_alter_eq, HR. simpl.
      exists p0, (stage_of_pstate st). simpl.
      split; [done|]. split.
      { exists (calls_of r (calls w)). simpl.
        by rewrite calls_of_app, calls_of_one_eq. }
      unfold chain_ok. simpl.
      rewrite (lookup_app_r _ _ p0), (lookup_app_r _ _ (S p0)),
        (lookup_app_r _ _ (S (S p0))) by (unfold p0; lia).
      replace (p0 - length (promises w)) with 0 by (unfold p0; lia).
      replace (S p0 - length (promises w)) with 1 by (unfold p0; lia).
      replace (S (S p0) - length (promises w)) with 2 by (unfold p0; lia).
      rewrite jobs_of_app, Hj, Hr, He. simpl.
      destruct st as [|s]; simpl.
      * done.
      * split_and!; try done.
        apply (jobs_of_one_eq (OnThen r (S p0)) s).
    + apply (res_ok_frame w); simpl.
      * by rewrite list_lookup_alter_ne.
      * rewrite calls_of_app, calls_of_one_ne by done. by rewrite app_nil_r.
      * rewrite jobs_of_app. destruct st as [|s]; [by rewrite app_nil_r|].
        rewrite (jobs_of_one_ne r' (OnThen r (S p0)) s) by done.
        by rewrite app_nil_r.
      * intros R' h p HR' Hh' Hle.
        destruct (handle_bounds w r' R' h Hwf HR' Hh') as [_ Hlt].
        apply lookup_app_l. lia.
      * apply Hres.
  - intros r1 r2 R1 R2 h1 h2 Hne H1 H2 Hh1 Hh2. simpl in H1, H2.
    rewrite list_lookup_alter in H1, H2.
    destruct (decide (r = r1)) as [<-|Hn1];
      destruct (decide (r = r2)) as [<-|Hn2]; try done.
    + rewrite HR in H1. simpl in H1. simplify_eq. simpl in Hh1. simplify_eq.
      destruct (handle_bounds w r2 R2 h2 Hwf H2 Hh2). right. lia.
    + rewrite HR in H2. simpl in H2. simplify_eq. simpl in Hh2. simplify_eq.
      destruct (handle_bounds w r1 R1 h1 Hwf H1 Hh1). left. lia.
    + by apply (Hap r1 r2 R1 R2).
  - intros g tbl id r' Hgr Hid. simpl in *. rewrite length_alter.
    by eapply Hg.
Qed.

(** A step that only moves Resource [r]'s chain forward keeps the
    invariant. *)
Lemma wf_advance w w' r R R' p0 st' :
  wf w →
  resources w !! r = Some R → promise R = Some (S (S p0)) →
  resources w' !! r = Some R' →
  (∀ r', r' ≠ r → resources w' !! r' = resources w !! r') →
  length (resources w') = length (resources w) →
  loader R' = loader R → promise R' = promise R →
  calls w' = calls w → groups w' = groups w →
  (∀ r', r' ≠ r → jobs_of r' (jobs w') = jobs_of r' (jobs w)) →
  (∀ p, p < p0 ∨ S (S p0) < p → promises w' !! p = promises w !! p) →
  chain_ok w' r R' p0 st' →
  wf w'.
Proof.
  intros Hwf HR Hh HR' Hother Hlen Hl Hpr Hc Hg Hj Hp Hchain.
  pose proof Hwf as [Hres Hap Hgr].
  split.
  - intros r'. destruct (decide (r' = r)) as [->|Hne].
    + unfold res_ok. rewrite HR', Hpr, Hh. exists p0, st'.
      split; [done|]. split; [|done].
      destruct (started_inv w r R _ Hwf HR Hh) as (q0 & st & Hq & Hcalls & _).
      assert (q0 = p0) as -> by lia.
      unfold calls_ok. by rewrite Hc, Hl.
    + apply (res_ok_frame w); auto.
      * by rewrite Hc.
      * intros R1 h1 p H1 Hh1 Hle. apply Hp.
        destruct (Hap r' r R1 R h1 (S (S p0)) Hne H1 HR Hh1 Hh); lia.
  - intros r1 r2 R1 R2 h1 h2 Hne H1 H2 Hh1 Hh2.
    destruct (decide (r1 = r)) as [->|Hn1];
      destruct (decide (r2 = r)) as [->|Hn2]; try done.
    + rewrite Hother in H2 by done. rewrite HR' in H1. simplify_eq.
      rewrite Hpr in Hh1. by apply (Hap r r2 R R2).
    + rewrite Hother in H1 by done. rewrite HR' in H2. simplify_eq.
      rewrite Hpr in Hh2. by apply (Hap r1 r R1 R).
    + rewrite Hother in H1, H2 by done. by apply (Hap r1 r2 R1 R2).
  - intros g tbl id r' Hgg Hid. rewrite Hlen. rewrite Hg in Hgg.
    by eapply Hgr.
Qed.

Lemma loader_made_inv w p :
  wf w → loader_made p (calls w) = true →
  ∃ r R st,
    resources w !! r = Some R ∧ promise R = Some (S (S p)) ∧
    chain_ok w r R p st.
Proof.
  intros Hwf Hmade. unfold loader_made in Hmade.
  apply bool_decide_eq_true in Hmade.
  apply list_elem_of_fmap in Hmade as (c & Hcp & Hc).
  remember (c_rid c) as r eqn:Hr.
  assert (c ∈ calls_of r (calls w)) as Hin.
  { unfold calls_of. apply list_elem_of_filter. by split. }
  pose proof (wf_res w Hwf r) as Hres. unfold res_ok in Hres.
  destruct (resources w !! r) as [R|] eqn:HR.
  - destruct (promise R) as [h|] eqn:Hh.
    + destruct Hres as (p0 & st & -> & (thrown & Hcalls & Hthrown) & Hchain).
      rewrite Hcalls in Hin. apply elem_of_app in Hin as [Hin|Hin].
      * rewrite Forall_forall in Hthrown. destruct (Hthrown c Hin) as [Hc' _].
        by rewrite Hc' in Hcp.
      * apply list_elem_of_singleton in Hin. rewrite Hin in Hcp. simpl in Hcp.
        simplify_eq. by eexists _, R, st.
    + destruct Hres as (Hthrown & _).
      rewrite Forall_forall in Hthrown. destruct (Hthrown c Hin) as [Hc' _].
      by rewrite Hc' in Hcp.
  - destruct Hres as [Hnil _]. rewrite Hnil in Hin. by apply elem_of_nil in Hin.
Qed.

Lemma wf_settle_external w p s : wf w → wf (settle_external p s w).
Proof.
  intros Hwf. unfold settle_external.
  destruct (loader_made p (calls w)) eqn:Hmade; [|done].
  destruct (loader_made_inv w p Hwf Hmade) as (r & R & st & HR & Hh & Hchain).
  pose proof Hchain as (H0 & H1 & H2 & Hj & Hr & He).
  destruct st as [|s'|s'|s'];
    try (by erewrite settle_promise_settled by exact H0).
  erewrite settle_promise_waiting by exact H0.
  apply (wf_advance w _ r R R p (StSettled s)); simpl; try done.
  - intros r' Hne. rewrite jobs_of_app.
    rewrite (jobs_of_one_ne r' (OnThen r (S p)) s) by done.
    by rewrite app_nil_r.
  - intros p' Hp'. apply list_lookup_insert_ne. lia.
  - unfold chain_ok. simpl.
    rewrite list_lookup_insert_eq by (by eapply lookup_lt_Some).
    rewrite !list_lookup_insert_ne by lia.
    rewrite jobs_of_app, Hj. split_and!; try done.
    apply (jobs_of_one_eq (OnThen r (S p)) s).
Qed.

(** The job at the head of the queue belongs to a started Resource whose
    chain is waiting for exactly that job. *)
Lemma job_head_inv w k s js :
  wf w → jobs w = (k, s) :: js →
  ∃ R p0,
    resources w !! reaction_owner k = Some R ∧
    promise R = Some (S (S p0)) ∧
    jobs_of (reaction_owner k) js = [] ∧
    ((k = OnThen (reaction_owner k) (S p0) ∧
      chain_ok w (reaction_owner k) R p0 (StSettled s)) ∨
     (k = OnCatch (reaction_owner k) (S (S p0)) ∧
      chain_ok w (reaction_owner k) R p0 (StThenDone s))).
Proof.
  intros Hwf Hjobs. set (r := reaction_owner k).
  pose proof (wf_res w Hwf r) as Hres. unfold res_ok in Hres.
  assert (jobs_of r (jobs w) = (k, s) :: jobs_of r js) as Hj.
  { rewrite Hjobs. apply jobs_of_cons_eq. }
  destruct (resources w !! r) as [R|] eqn:HR.
  - destruct (promise R) as [h|] eqn:Hh.
    + destruct Hres as (p0 & st & -> & _ & Hchain).
      pose proof Hchain as (_ & _ & _ & Hj' & _).
      rewrite Hj in Hj'. exists R, p0.
      destruct st as [|s'|s'|s']; simpl in Hj'; simplify_eq.
      * split_and!; try done. left. by split.
      * split_and!; try done. right. by split.
    + destruct Hres as (_ & Hj' & _). by rewrite Hj in Hj'.
  - destruct Hres as (_ & Hj'). by rewrite Hj in Hj'.
Qed.

Lemma wf_tick w : wf w → wf (tick w).
Proof.
  intros Hwf. unfold tick.
  destruct (jobs w) as [|[k s] js] eqn:Hjobs; [done|].
  destruct (job_head_inv w k s js Hwf Hjobs)
    as (R & p0 & HR & Hh & Hjs & [[Hk Hchain]|[Hk Hchain]]);
    set (r := reaction_owner k) in *; rewrite Hk;
    pose proof Hchain as (H0 & H1 & H2 & Hj & Hr & He);
    pose proof (lookup_lt_Some _ _ _ HR) as Hlt.
  - (* the [.then] job *)
    destruct s as [v|e]; simpl.
    + erewrite settle_promise_waiting by exact H1. simpl.
      apply (wf_advance w _ r R (set_result v R) p0 (StThenDone (Fulfilled v)));
        simpl; try done.
      * by rewrite list_lookup_alter_eq, HR.
      * intros r' Hne. by rewrite list_lookup_alter_ne.
      * by rewrite length_alter.
      * intros r' Hne. rewrite Hjobs, jobs_of_app.
        rewrite (jobs_of_one_ne r' (OnCatch r (S (S p0)))) by done.
        rewrite app_nil_r. symmetry. apply jobs_of_cons_ne.
        fold r. congruence.
      * intros p Hp. apply list_lookup_insert_ne. lia.
      * unfold chain_ok. simpl.
        rewrite list_lookup_insert_eq by (by eapply lookup_lt_Some).
        rewrite !list_lookup_insert_ne by lia.
        rewrite jobs_of_app, Hjs, He. split_and!; try done.
        apply (jobs_of_one_eq (OnCatch r (S (S p0)))).
    + erewrite settle_promise_waiting by exact H1. simpl.
      apply (wf_advance w _ r R R p0 (StThenDone (Rejected e)));
        simpl; try done.
      * intros r' Hne. rewrite Hjobs, jobs_of_app.
        rewrite (jobs_of_one_ne r' (OnCatch r (S (S p0)))) by done.
        rewrite app_nil_r. symmetry. apply jobs_of_cons_ne.
        fold r. congruence.
      * intros p Hp. apply list_lookup_insert_ne. lia.
      * unfold chain_ok. simpl.
        rewrite list_lookup_insert_eq by (by eapply lookup_lt_Some).
        rewrite !list_lookup_insert_ne by lia.
        rewrite jobs_of_app, Hjs. split_and!; try done.
        apply (jobs_of_one_eq (OnCatch r (S (S p0)))).
  - (* the [.catch] job *)
    destruct s as [v|e]; simpl.
    + erewrite settle_promise_waiting by exact H2. simpl.
      apply (wf_advance w _ r R R p0 (StDone (Fulfilled v)));
        simpl; try done.
      * intros r' Hne. rewrite Hjobs, app_nil_r.
        symmetry. apply jobs_of_cons_ne. fold r. congruence.
      * intros p Hp. apply list_lookup_insert_ne. lia.
      * unfold chain_ok. simpl.
        rewrite list_lookup_insert_eq by (by eapply lookup_lt_Some).
        rewrite !list_lookup_insert_ne by lia.
        rewrite app_nil_r, Hjs. done.
    + erewrite settle_promise_waiting by exact H2. simpl.
      apply (wf_advance w _ r R (set_error e R) p0 (StDone (Rejected e)));
        simpl; try done.
      * by rewrite list_lookup_alter_eq, HR.
      * intros r' Hne. by rewrite list_lookup_alter_ne.
      * by rewrite length_alter.
      * intros r' Hne. rewrite Hjobs, app_nil_r.
        symmetry. apply jobs_of_cons_ne. fold r. congruence.
      * intros p Hp. apply list_lookup_insert_ne. lia.
      * unfold chain_ok. simpl.
        rewrite list_lookup_insert_eq by (by eapply lookup_lt_Some).
        rewrite !list_lookup_insert_ne by lia.
        rewrite app_nil_r, Hjs. done.
Qed.

Lemma wf_load r w : wf w → wf (load r w).1.
Proof.
  intros Hwf. unfold load.
  destruct (resources w !! r) as [R|] eqn:HR; [|done].
  destruct (promise R) as [h|] eqn:Hh; [done|].
  destruct (l_run (loader R) _) as [e|st] eqn:Hrun; simpl.
  - apply wf_load_throw; eauto.
  - by apply wf_load_return.
Qed.

Lemma wf_group_get g id l w : wf w → wf (group_get g id l w).1.
Proof.
  intros Hwf. unfold group_get.
  destruct (groups w !! g) as [tbl|] eqn:Hg; [|done].
  destruct (tbl !! id) as [r|] eqn:Hid; simpl.
  - apply (wf_same w); try done. apply Hwf.
  - apply wf_alloc; [|done].
    intros g' tbl' id' r' Hg' Hid'.
    destruct (decide (g' = g)) as [->|Hne].
    + rewrite list_lookup_insert_eq in Hg' by (by eapply lookup_lt_Some).
      simplify_eq.
      destruct (decide (id' = id)) as [->|Hne'].
      * rewrite lookup_insert_eq in Hid'. simplify_eq. lia.
      * rewrite lookup_insert_ne in Hid' by done.
        pose proof (wf_groups w Hwf g tbl id' r' Hg Hid'). lia.
    + rewrite list_lookup_insert_ne in Hg' by done.
      pose proof (wf_groups w Hwf g' tbl' id' r' Hg' Hid'). lia.
Qed.

Lemma wf_step a w : wf w → wf (step a w).1.
Proof.
  intros Hwf. destruct a as [l| |g id l|r|r|r|p s|]; simpl.
  - apply wf_alloc; [|done]. intros g tbl id r Hg Hid.
    pose proof (wf_groups w Hwf g tbl id r Hg Hid). lia.
  - apply (wf_same w); try done.
    intros g tbl id r Hg Hid. simpl in *.
    apply lookup_app_Some in Hg as [Hg|[_ Hg]].
    + by eapply (wf_groups w Hwf).
    + apply list_lookup_singleton_Some in Hg as [_ <-].
      by rewrite lookup_empty in Hid.
  - by apply wf_group_get.
  - by apply wf_load.
  - by rewrite get_world.
  - by rewrite read_world.
  - by apply wf_settle_external.
  - by apply wf_tick.
Qed.

Lemma wf_exec acts w : wf w → wf (exec acts w).
Proof.
  revert w. induction acts as [|a acts IH]; intros w Hwf; [done|].
  rewrite exec_cons. apply IH. by apply wf_step.
Qed.

Lemma wf_reachable acts : wf (exec acts init).
Proof. apply wf_exec, wf_init. Qed.

(** ** What a step leaves alone *)

Lemma settle_promise_resources p s w :
  resources (settle_promise p s w) = resources w.
Proof.
  unfold settle_promise.
  by destruct (promises w !! p) as [[[|?] ?]|].
Qed.

Lemma settle_promise_calls p s w : calls (settle_promise p s w) = calls w.
Proof.
  unfold settle_promise.
  by destruct (promises w !! p) as [[[|?] ?]|].
Qed.

Lemma settle_promise_groups p s w : groups (settle_promise p s w) = groups w.
Proof.
  unfold settle_promise.
  by destruct (promises w !! p) as [[[|?] ?]|].
Qed.

Lemma run_job_calls j w : calls (run_job j w) = calls w.
Proof.
  destruct j as [[r c|r c] [v|e]]; simpl; by rewrite settle_promise_calls.
Qed.

Lemma run_job_groups j w : groups (run_job j w) = groups w.
Proof.
  destruct j as [[r c|r c] [v|e]]; simpl; by rewrite settle_promise_groups.
Qed.

Lemma tick_calls w : calls (tick w) = calls w.
Proof.
  unfold tick. destruct (jobs w) as [|j js]; [done|].
  by rewrite run_job_calls.
Qed.

Lemma tick_groups w : groups (tick w) = groups w.
Proof.
  unfold tick. destruct (jobs w) as [|j js]; [done|].
  by rewrite run_job_groups.
Qed.

Lemma settle_external_calls p s w : calls (settle_external p s w) = calls w.
Proof.
  unfold settle_external. destruct (loader_made p (calls w)); [|done].
  apply settle_promise_calls.
Qed.

Lemma settle_external_groups p s w :
  groups (settle_external p s w) = groups w.
Proof.
  unfold settle_external. destruct (loader_made p (calls w)); [|done].
  apply settle_promise_groups.
Qed.

Lemma settle_external_resources p s w :
  resources (settle_external p s w) = resources w.
Proof.
  unfold settle_external. destruct (loader_made p (calls w)); [|done].
  apply settle_promise_resources.
Qed.

(** Only [load] calls loaders. *)
Lemma step_calls a w : is_load a = false → calls (step a w).1 = calls w.
Proof.
  destruct a as [l| |g id l|r|r|r|p s|]; simpl; intros Hl; try done.
  - unfold group_get. destruct (groups w !! g) as [tbl|]; [|done].
    by destruct (tbl !! id).
  - by rewrite get_world.
  - by rewrite read_world.
  - apply settle_external_calls.
  - apply tick_calls.
Qed.

(** [load] on a Resource calls that Resource's loader only. *)
Lemma load_calls_other r r' w :
  r ≠ r' → calls_of r' (calls (load r w).1) = calls_of r' (calls w).
Proof.
  intros Hne. unfold load.
  destruct (resources w !! r) as [R|]; [|done].
  destruct (promise R); [done|].
  destruct (l_run _ _); simpl;
    rewrite calls_of_app, calls_of_one_ne by done; by rewrite app_nil_r.
Qed.

Lemma step_calls_of a w r :
  a ≠ ALoad r → calls_of r (calls (step a w).1) = calls_of r (calls w).
Proof.
  intros Hne. destruct (is_load a) eqn:Hl.
  - destruct a; try done. simpl. apply load_calls_other. congruence.
  - by rewrite step_calls.
Qed.

Lemma exec_calls_of acts w r :
  Forall (λ a, a ≠ ALoad r) acts →
  calls_of r (calls (exec acts w)) = calls_of r (calls w).
Proof.
  revert w. induction acts as [|a acts IH]; intros w Hno; [done|].
  apply Forall_cons in Hno as [Ha Hno].
  rewrite exec_cons, IH by done. by apply step_calls_of.
Qed.

(** Once started, a Resource does not call its loader again. *)
Lemma step_calls_started a w r R h :
  resources w !! r = Some R → promise R = Some h →
  calls_of r (calls (step a w).1) = calls_of r (calls w).
Proof.
  intros HR Hh. destruct a as [l| |g id l|r'|r'|r'|p s|];
    try (by apply step_calls_of).
  destruct (decide (r' = r)) as [->|Hne].
  - simpl. unfold load. by rewrite HR, Hh.
  - apply step_calls_of. congruence.
Qed.

(** A settled promise stays settled, with the same settlement. *)
Lemma settle_promise_pstate q s' w p s :
  pstate_at w p = Settled s → pstate_at (settle_promise q s' w) p = Settled s.
Proof.
  unfold pstate_at, settle_promise. intros Hp.
  destruct (promises w !! q) as [[[|s0] ks]|] eqn:Hq; try done.
  simpl. destruct (decide (q = p)) as [->|Hne].
  - by rewrite Hq in Hp.
  - by rewrite list_lookup_insert_ne.
Qed.

Lemma step_pstate a w p s :
  pstate_at w p = Settled s → pstate_at (step a w).1 p = Settled s.
Proof.
  intros Hp. destruct a as [l| |g id l|r|r|r|q s'|]; simpl; try done.
  - unfold group_get. destruct (groups w !! g) as [tbl|]; [|done].
    by destruct (tbl !! id).
  - unfold load. destruct (resources w !! r) as [R|]; [|done].
    destruct (promise R); [done|].
    destruct (l_run _ _); simpl; [done|].
    unfold pstate_at in *. simpl.
    destruct (promises w !! p) as [P|] eqn:HP; [|done].
    by rewrite (lookup_app_l_Some _ _ _ _ HP).
  - by rewrite get_world.
  - by rewrite read_world.
  - unfold settle_external. destruct (loader_made q (calls w)); [|done].
    by apply settle_promise_pstate.
  - unfold tick. destruct (jobs w) as [|[[r c|r c] [v|e]] js]; [done|..];
      simpl; by apply settle_promise_pstate.
Qed.

Lemma exec_pstate acts w p s :
  pstate_at w p = Settled s → pstate_at (exec acts w) p = Settled s.
Proof.
  revert w. induction acts as [|a acts IH]; intros w Hp; [done|].
  rewrite exec_cons. by apply IH, step_pstate.
Qed.

(** A Resource is never removed, keeps its loader, and keeps its handle
    once it has one. *)
Lemma step_resource a w r R :
  resources w !! r = Some R →
  ∃ R', resources (step a w).1 !! r = Some R' ∧
        loader R' = loader R ∧
        (∀ h, promise R = Some h → promise R' = Some h).
Proof.
  intros HR.
  assert (∀ f, loader (f R) = loader R →
            (∀ h, promise R = Some h → promise (f R) = Some h) → ∀ r',
    ∃ R', alter f r' (resources w) !! r = Some R' ∧ loader R' = loader R ∧
          (∀ h, promise R = Some h → promise R' = Some h)) as Halter.
  { intros f Hl Hp r'. rewrite list_lookup_alter.
    destruct (decide (r' = r)) as [->|Hne].
    - rewrite HR. simpl. by exists (f R).
    - by exists R. }
  destruct a as [l| |g id l|r'|r'|r'|q s'|]; simpl.
  - exists R. by rewrite (lookup_app_l_Some _ _ _ _ HR).
  - by exists R.
  - unfold group_get. destruct (groups w !! g) as [tbl|]; [|by exists R].
    destruct (tbl !! id); simpl; [by exists R|].
    exists R. by rewrite (lookup_app_l_Some _ _ _ _ HR).
  - unfold load. destruct (resources w !! r') as [R0|] eqn:HR0; [|by exists R].
    destruct (promise R0) eqn:Hh0; [by exists R|].
    destruct (l_run _ _); simpl; [by exists R|].
    rewrite list_lookup_alter. destruct (decide (r' = r)) as [->|Hne].
    + rewrite HR. simpl. eexists. split; [done|]. split; [done|].
      intros h Hh. simplify_eq.
    + by exists R.
  - rewrite get_world. by exists R.
  - rewrite read_world. by exists R.
  - rewrite settle_external_resources. by exists R.
  - unfold tick. destruct (jobs w) as [|[[r0 c|r0 c] [v|e]] js]; [by exists R|..];
      simpl; rewrite settle_promise_resources; simpl;
      try (by exists R); by apply Halter.
Qed.

Lemma exec_resource acts w r R :
  resources w !! r = Some R →
  ∃ R', resources (exec acts w) !! r = Some R' ∧
        loader R' = loader R ∧
        (∀ h, promise R = Some h → promise R' = Some h).
Proof.
  revert w R. induction acts as [|a acts IH]; intros w R HR.
  - by exists R.
  - rewrite exec_cons.
    destruct (step_resource a w r R HR) as (R1 & HR1 & Hl1 & Hp1).
    destruct (IH _ R1 HR1) as (R2 & HR2 & Hl2 & Hp2).
    exists R2. split; [done|]. split; [congruence|]. auto.
Qed.

Lemma exec_calls_started acts w r R h :
  resources w !! r = Some R → promise R = Some h →
  calls_of r (calls (exec acts w)) = calls_of r (calls w).
Proof.
  revert w R. induction acts as [|a acts IH]; intros w R HR Hh; [done|].
  rewrite exec_cons.
  destruct (step_resource a w r R HR) as (R1 & HR1 & _ & Hp1).
  rewrite (IH _ R1 HR1 (Hp1 h Hh)). by eapply step_calls_started.
Qed.

(** Where a Resource comes from: it was there before the step, with the
    same loader and, unless the step is its own [load], the same handle; or
    the step constructed it, unstarted, around the loader it supplied. *)
Lemma step_resource_back a w r R' :
  resources (step a w).1 !! r = Some R' →
  (∃ R, resources w !! r = Some R ∧ loader R' = loader R ∧
        (promise R' = promise R ∨ (promise R = None ∧ is_load a = true ∧ a = ALoad r))) ∨
  (resources w !! r = None ∧ ∃ l, supplied a = Some l ∧ R' = new_Resource l).
Proof.
  assert (∀ l, (resources w ++ [new_Resource l]) !! r = Some R' →
    (∃ R, resources w !! r = Some R ∧ loader R' = loader R ∧
        (promise R' = promise R ∨ (promise R = None ∧ is_load a = true ∧ a = ALoad r))) ∨
    (resources w !! r = None ∧ R' = new_Resource l)) as Happ.
  { intros l H. apply lookup_app_Some in H as [H|[Hlen H]].
    - left. exists R'. auto.
    - right. apply list_lookup_singleton_Some in H as [_ <-].
      split; [|done]. apply lookup_ge_None_2. lia. }
  assert (∀ f r', (∀ R, loader (f R) = loader R ∧ promise (f R) = promise R) →
    alter f r' (resources w) !! r = Some R' →
    ∃ R, resources w !! r = Some R ∧ loader R' = loader R ∧
        (promise R' = promise R ∨ (promise R = None ∧ is_load a = true ∧ a = ALoad r)))
    as Halter.
  { intros f r' Hf H. rewrite list_lookup_alter in H.
    destruct (decide (r' = r)) as [->|Hne].
    - destruct (resources w !! r) as [R|]; [|done]. simpl in H.
      simplify_eq. exists R. destruct (Hf R). auto.
    - exists R'. auto. }
  destruct a as [l| |g id l|r'|r'|r'|q s'|]; simpl; intros H.
  - destruct (Happ l H) as [?|[? ?]]; [by left|]. right. eauto.
  - left. exists R'. auto.
  - unfold group_get in H. destruct (groups w !! g) as [tbl|].
    + destruct (tbl !! id); simpl in H.
      * left. exists R'. auto.
      * destruct (Happ l H) as [?|[? ?]]; [by left|]. right. eauto.
    + left. exists R'. auto.
  - left. unfold load in H.
    destruct (resources w !! r') as [R0|] eqn:HR0; [|exists R'; auto].
    destruct (promise R0) eqn:Hh0; [exists R'; auto|].
    destruct (l_run _ _); simpl in H; [exists R'; auto|].
    rewrite list_lookup_alter in H.
    destruct (decide (r' = r)) as [->|Hne].
    + rewrite HR0 in H. simpl in H. simplify_eq. exists R0.
      split; [done|]. split; [done|]. by right.
    + exists R'. auto.
  - rewrite get_world in H. left. exists R'. auto.
  - rewrite read_world in H. left. exists R'. auto.
  - rewrite settle_external_resources in H. left. exists R'. auto.
  - left. unfold tick in H.
    destruct (jobs w) as [|[[r0 c|r0 c] [v|e]] js]; [exists R'; auto|..];
      unfold run_job in H; rewrite settle_promise_resources in H; simpl in H;
      try (exists R'; by auto);
      (eapply Halter; [|exact H]; by intros []).
Qed.

(** An entry of a registry is never removed or overwritten. *)
Lemma step_group_entry a w g (tbl : gmap string nat) id r :
  groups w !! g = Some tbl → tbl !! id = Some r →
  ∃ tbl' : gmap string nat,
    groups (step a w).1 !! g = Some tbl' ∧ tbl' !! id = Some r.
Proof.
  intros Hg Hid.
  destruct a as [l| |g' id' l|r'|r'|r'|q s'|]; simpl;
    try (by exists tbl).
  - exists tbl. by rewrite (lookup_app_l_Some _ _ _ _ Hg).
  - unfold group_get.
    destruct (groups w !! g') as [tbl0|] eqn:Hg'; [|by exists tbl].
    destruct (tbl0 !! id') as [r0|] eqn:Hid'; simpl; [by exists tbl|].
    destruct (decide (g' = g)) as [->|Hne].
    + simplify_eq. exists (<[id' := length (resources w)]> tbl).
      rewrite list_lookup_insert_eq by (by eapply lookup_lt_Some).
      split; [done|]. rewrite lookup_insert_ne; [done|]. congruence.
    + exists tbl. by rewrite list_lookup_insert_ne.
  - unfold load. destruct (resources w !! r') as [R|]; [|by exists tbl].
    destruct (promise R); [by exists tbl|].
    destruct (l_run _ _); by exists tbl.
  - rewrite get_world. by exists tbl.
  - rewrite read_world. by exists tbl.
  - rewrite settle_external_groups. by exists tbl.
  - rewrite tick_groups. by exists tbl.
Qed.

Lemma exec_group_entry acts w g (tbl : gmap string nat) id r :
  groups w !! g = Some tbl → tbl !! id = Some r →
  ∃ tbl' : gmap string nat,
    groups (exec acts w) !! g = Some tbl' ∧ tbl' !! id = Some r.
Proof.
  revert w tbl. induction acts as [|a acts IH]; intros w tbl Hg Hid.
  - by exists tbl.
  - rewrite exec_cons.
    destruct (step_group_entry a w g tbl id r Hg Hid) as (tbl1 & Hg1 & Hid1).
    by apply (IH _ tbl1).
Qed.

(** ** Stages only move forward *)

Lemma chain_stage_le w w' r R R' p0 st st' :
  (∀ p s, pstate_at w p = Settled s → pstate_at w' p = Settled s) →
  chain_ok w r R p0 st → chain_ok w' r R' p0 st' → stage_le st st'.
Proof.
  intros Hmono (H0 & H1 & H2 & _) (H0' & H1' & H2' & _).
  apply pstate_at_lookup in H0, H1, H2, H0', H1', H2'.
  destruct st as [|s|s|s]; simpl in *; [done|..].
  - apply Hmono in H0. rewrite H0' in H0.
    destruct st'; simpl in *; simplify_eq; auto.
  - apply Hmono in H1. rewrite H1' in H1.
    destruct st'; simpl in *; simplify_eq; auto.
  - apply Hmono in H2. rewrite H2' in H2.
    destruct st'; simpl in *; simplify_eq; auto.
Qed.


Lemma stage_le_resolved st st' v :
  stage_le st st' → stage_state st = Resolved v → stage_state st' = Resolved v.
Proof.
  destruct st as [|[v'|e]|[v'|e]|[v'|e]]; simpl; intros Hle Hst;
    try discriminate Hst; injection Hst as ->.
  - by destruct Hle as [->| ->].
  - by rewrite Hle.
Qed.

(** The chain of a started Resource, at any later time. *)
Lemma exec_chain acts w r R p0 st :
  wf w → resources w !! r = Some R → promise R = Some (S (S p0)) →
  chain_ok w r R p0 st →
  ∃ R' st',
    resources (exec acts w) !! r = Some R' ∧
    promise R' = Some (S (S p0)) ∧
    loader R' = loader R ∧
    chain_ok (exec acts w) r R' p0 st' ∧
    stage_le st st'.
Proof.
  intros Hwf HR Hh Hchain.
  destruct (exec_resource acts w r R HR) as (R' & HR' & Hl & Hp).
  specialize (Hp _ Hh).
  destruct (started_inv _ r R' _ (wf_exec acts w Hwf) HR' Hp)
    as (q0 & st' & Hq & _ & Hchain').
  assert (q0 = p0) as -> by lia.
  exists R', st'. split_and!; try done.
  eapply chain_stage_le; [|done|done].
  intros p s. apply exec_pstate.
Qed.

Lemma state_of_chain w r R p0 st :
  promise R = Some (S (S p0)) → chain_ok w r R p0 st →
  state_of w R = stage_state st.
Proof.
  intros Hh (H0 & H1 & H2 & _). unfold state_of. rewrite Hh.
  apply pstate_at_lookup in H1, H2.
  replace (S (S p0) - 1) with (S p0) by lia. rewrite H1, H2.
  by destruct st as [|[v|e]|[v|e]|[v|e]].
Qed.

Lemma chain_settled_idle w r R p0 st s :
  chain_ok w r R p0 st →
  pstate_at w p0 = Settled s → jobs_of r (jobs w) = [] →
  st = StDone s.
Proof.
  intros (H0 & _ & _ & Hj & _) Hp Hidle.
  apply pstate_at_lookup in H0. rewrite H0 in Hp. rewrite Hj in Hidle.
  destruct st; simpl in *; by simplify_eq.
Qed.


Lemma chain_waiting w r R p0 st :
  chain_ok w r R p0 st → pstate_at w p0 = Waiting → st = StWaiting.
Proof.
  intros (H0 & _) Hp. apply pstate_at_lookup in H0. rewrite H0 in Hp.
  by destruct st.
Qed.

Lemma chain_resolved_yields w r R p0 st v :
  chain_ok w r R p0 st → stage_state st = Resolved v →
  yields w (S (S p0)) v ∧ result R = v ∧ error R = VNull.
Proof.
  intros (_ & _ & H2 & Hj & Hr & He) Hst.
  apply pstate_at_lookup in H2.
  destruct st as [|[v'|e]|[v'|e]|[v'|e]]; simpl in *; simplify_eq.
  - split; [|done]. right. split; [done|]. exists r.
    apply (jobs_of_elem r). rewrite Hj. apply list_elem_of_here.
  - split; [|done]. by left.
Qed.

Lemma loader_promise_started w r R p0 :
  wf w → resources w !! r = Some R → promise R = Some (S (S p0)) →
  loader_promise w r = Some p0.
Proof.
  intros Hwf HR Hh.
  destruct (started_inv w r R _ Hwf HR Hh)
    as (q0 & st & Hq & (thrown & Hcalls & _) & _).
  assert (q0 = p0) as -> by lia.
  unfold loader_promise. by rewrite Hcalls, last_snoc.
Qed.

Lemma loader_promise_inv w r R p0 :
  wf w → resources w !! r = Some R → loader_promise w r = Some p0 →
  promise R = Some (S (S p0)).
Proof.
  intros Hwf HR Hlp. destruct (promise R) as [h|] eqn:Hh.
  - destruct (started_inv w r R _ Hwf HR Hh) as (q0 & st & -> & _).
    rewrite (loader_promise_started w r R q0 Hwf HR Hh) in Hlp. congruence.
  - destruct (unstarted_inv w r R Hwf HR Hh) as (Hthrown & _).
    unfold loader_promise in Hlp.
    destruct (last (calls_of r (calls w))) as [c|] eqn:Hlast; [|done].
    apply last_Some in Hlast as (l' & Hl'). rewrite Hl' in Hthrown.
    apply Forall_app in Hthrown as [_ Hc].
    apply Forall_singleton in Hc as [-> _]. done.
Qed.

(** ** Single flight *)

(** With a loader that always returns, the call count is read off the
    field [promise]. *)
Lemma invocations_returning w r R :
  wf w → resources w !! r = Some R → returns_promise (loader R) →
  invocations w r = match promise R with None => 0 | Some _ => 1 end.
Proof.
  intros Hwf HR Hret.
  assert (∀ cs, Forall (thrown_call (loader R) r) cs → cs = []) as Hnil.
  { intros [|c cs] Hcs; [done|]. apply Forall_cons in Hcs as [[_ (n & e & Hn)] _].
    destruct (Hret n) as [st Hst]. congruence. }
  unfold invocations. destruct (promise R) as [h|] eqn:Hh.
  - destruct (started_inv w r R _ Hwf HR Hh)
      as (p0 & st & _ & (thrown & -> & Hthrown) & _).
    by rewrite (Hnil _ Hthrown).
  - destruct (unstarted_inv w r R Hwf HR Hh) as (Hthrown & _).
    by rewrite (Hnil _ Hthrown).
Qed.

Lemma load_returning r w R :
  resources w !! r = Some R → returns_promise (loader R) →
  ∃ h R',
    (load r w).2 = Returned (VPromise h) ∧
    resources (load r w).1 !! r = Some R' ∧
    promise R' = Some h ∧ loader R' = loader R.
Proof.
  intros HR Hret. unfold load. rewrite HR.
  destruct (promise R) as [h|] eqn:Hh.
  - by exists h, R.
  - destruct (Hret (times_called (l_id (loader R)) (calls w))) as [st ->].
    simpl. eexists _, _. split; [done|].
    rewrite list_lookup_alter_eq, HR. done.
Qed.

(** C1 (amended). Take a Resource whose loader returns a promise on every
    call, and any program run on it. At every moment the loader has been
    called at most once; after any [load()] it has been called exactly
    once; every [load()] returns the one promise stored in the Resource;
    and that promise never shows two different settlements. *)
Theorem load_single_flight pre acts r R :
  resources (exec pre init) !! r = Some R →
  returns_promise (loader R) →
  (∀ k, invocations (exec (take k acts) (exec pre init)) r ≤ 1) ∧
  (∀ i, acts !! i = Some (ALoad r) →
        invocations (exec (take (S i) acts) (exec pre init)) r = 1) ∧
  (∃ R', resources (exec acts (exec pre init)) !! r = Some R' ∧
     ∀ i, acts !! i = Some (ALoad r) →
       ∃ h, promise R' = Some h ∧
            outcomes acts (exec pre init) !! i = Some (Returned (VPromise h))) ∧
  (∀ h k k' s s',
     pstate_at (exec (take k acts) (exec pre init)) h = Settled s →
     pstate_at (exec (take k' acts) (exec pre init)) h = Settled s' →
     s = s').
Proof.
  intros HR Hret.
  pose proof (wf_reachable pre) as Hwf. set (w := exec pre init) in *.
  assert (∀ k, ∃ Rk, resources (exec (take k acts) w) !! r = Some Rk ∧
                     returns_promise (loader Rk)) as Hat.
  { intros k. destruct (exec_resource (take k acts) w r R HR)
      as (Rk & HRk & Hl & _). exists Rk. by rewrite Hl. }
  assert (∀ k, wf (exec (take k acts) w)) as Hwfk
    by (intros; by apply wf_exec).
  split_and!.
  - intros k. destruct (Hat k) as (Rk & HRk & Hretk).
    rewrite (invocations_returning _ r Rk (Hwfk k) HRk Hretk).
    destruct (promise Rk); lia.
  - intros i Hi. destruct (Hat i) as (Ri & HRi & Hreti).
    destruct (load_returning r _ Ri HRi Hreti) as (h & R' & _ & HR' & Hh' & Hl').
    rewrite <- (exec_take_load acts w i r Hi) in HR'.
    rewrite (invocations_returning _ r R' (Hwfk (S i)) HR'), Hh'; [done|].
    by rewrite Hl'.
  - destruct (exec_resource acts w r R HR) as (Rend & HRend & _ & _).
    exists Rend. split; [done|]. intros i Hi.
    destruct (Hat i) as (Ri & HRi & Hreti).
    destruct (load_returning r _ Ri HRi Hreti)
      as (h & R' & Hout & HR' & Hh' & _).
    exists h. split.
    + rewrite <- (exec_take_load acts w i r Hi) in HR'.
      destruct (exec_resource (drop (S i) acts) _ r R' HR')
        as (R'' & HR'' & _ & Hkeep).
      rewrite <- exec_app, take_drop in HR''.
      rewrite HRend in HR''. simplify_eq. by apply Hkeep.
    + rewrite (outcomes_lookup_load acts w i r Hi). by rewrite <- Hout.
  - intros h k k' s s' Hk Hk'.
    destruct (decide (k ≤ k')).
    + rewrite (exec_take_le acts w k k') in Hk' by done.
      rewrite (exec_pstate _ _ h s Hk) in Hk'. congruence.
    + rewrite (exec_take_le acts w k' k) in Hk by lia.
      rewrite (exec_pstate _ _ h s' Hk') in Hk. congruence.
Qed.

Lemma load_single_flight_witness :
  let pre := [ANew pending_loader] in
  let acts := [ALoad 0; ALoad 0; ASettle 0 (Fulfilled (VStr "cats"));
               ALoad 0; ATick; ATick; ALoad 0] in
  (∀ k, invocations (exec (take k acts) (exec pre init)) 0 ≤ 1) ∧
  (∀ i, acts !! i = Some (ALoad 0) →
        invocations (exec (take (S i) acts) (exec pre init)) 0 = 1) ∧
  (∃ R', resources (exec acts (exec pre init)) !! 0 = Some R' ∧
     ∀ i, acts !! i = Some (ALoad 0) →
       ∃ h, promise R' = Some h ∧
            outcomes acts (exec pre init) !! i = Some (Returned (VPromise h))) ∧
  (∀ h k k' s s',
     pstate_at (exec (take k acts) (exec pre init)) h = Settled s →
     pstate_at (exec (take k' acts) (exec pre init)) h = Settled s' →
     s = s').
Proof.
  intros pre acts.
  apply (load_single_flight pre acts 0 (new_Resource pending_loader)).
  - reflexivity.
  - intros n. exists Waiting. reflexivity.
Defined.

(** C1, as stated, fails for a loader that throws before returning a
    promise: the Resource stays unstarted and the second [load()] calls the
    loader a second time. *)
Lemma load_single_flight_counterexample :
  let l := throws_once (VStr "offline") in
  let w := exec [ANew l; ALoad 0; ALoad 0] init in
  outcomes [ANew l; ALoad 0; ALoad 0] init =
    [Returned (VResource 0); Threw (VStr "offline"); Returned (VPromise 2)] ∧
  invocations w 0 = 2 ∧
  ¬ invocations w 0 ≤ 1.
Proof. vm_compute. repeat split. lia. Qed.

(** ** The registry *)

Lemma group_get_returns g id l w r :
  wf w → (group_get g id l w).2 = Returned (VResource r) →
  ∃ tbl R,
    groups w !! g = Some tbl ∧
    resources (group_get g id l w).1 !! r = Some R ∧
    (resources w !! r = None → tbl !! id = None ∧ R = new_Resource l) ∧
    (∀ R0, resources w !! r = Some R0 → tbl !! id = Some r ∧ R = R0) ∧
    ∃ tbl', groups (group_get g id l w).1 !! g = Some tbl' ∧
            tbl' !! id = Some r.
Proof.
  intros Hwf. unfold group_get.
  destruct (groups w !! g) as [tbl|] eqn:Hg; [|done].
  destruct (tbl !! id) as [r0|] eqn:Hid; simpl; intros Hr; simplify_eq.
  - pose proof (wf_groups w Hwf g tbl id r Hg Hid) as Hlt.
    apply lookup_lt_is_Some in Hlt as [R HR].
    exists tbl, R. rewrite HR. split_and!; try done.
    + intros R0 ?. by simplify_eq.
    + by exists tbl.
  - exists tbl, (new_Resource l). rewrite list_lookup_middle by done.
    split_and!; try done.
    + intros R0 HR0. apply lookup_lt_Some in HR0. lia.
    + exists (<[id := length (resources w)]> tbl).
      rewrite list_lookup_insert_eq by (by eapply lookup_lt_Some).
      by rewrite lookup_insert_eq.
Qed.

(** Every logged call was made by a Resource that exists, to its own
    loader. *)
Lemma call_lid_held w c :
  wf w → c ∈ calls w →
  ∃ R, resources w !! c_rid c = Some R ∧ c_lid c = l_id (loader R).
Proof.
  intros Hwf Hc. remember (c_rid c) as r eqn:Hr.
  assert (c ∈ calls_of r (calls w)) as Hin.
  { unfold calls_of. apply list_elem_of_filter. by split. }
  pose proof (wf_res w Hwf r) as Hres. unfold res_ok in Hres.
  destruct (resources w !! r) as [R|] eqn:HR.
  - exists R. split; [done|]. destruct (promise R) as [h|] eqn:Hh.
    + destruct Hres as (p0 & st & -> & (thrown & Hcalls & Hthrown) & _).
      rewrite Hcalls in Hin. apply elem_of_app in Hin as [Hin|Hin].
      * rewrite Forall_forall in Hthrown. destruct (Hthrown c Hin) as [Hc' _].
        by rewrite Hc'.
      * apply list_elem_of_singleton in Hin. by rewrite Hin.
    + destruct Hres as (Hthrown & _).
      rewrite Forall_forall in Hthrown. destruct (Hthrown c Hin) as [Hc' _].
      by rewrite Hc'.
  - destruct Hres as [Hnil _]. rewrite Hnil in Hin. by apply elem_of_nil in Hin.
Qed.

Lemma exec_unheld lid acts w :
  unheld lid w → Forall (brings_not lid) acts → unheld lid (exec acts w).
Proof.
  revert w. induction acts as [|a acts IH]; intros w Hun Hno; [done|].
  apply Forall_cons in Hno as [Ha Hno]. rewrite exec_cons.
  apply IH; [|done]. intros r R' HR'.
  destruct (step_resource_back _ _ _ _ HR')
    as [(R & HR & Hl & _)|(_ & l & Hsup & ->)].
  - rewrite Hl. by eapply Hun.
  - simpl. by apply Ha.
Qed.

Lemma unheld_never_called lid w :
  wf w → unheld lid w → times_called lid (calls w) = 0.
Proof.
  intros Hwf Hun. unfold times_called.
  destruct (filter (λ c, c_lid c = lid) (calls w)) as [|c cs] eqn:Hf; [done|].
  assert (c ∈ filter (λ c, c_lid c = lid) (calls w)) as Hin.
  { rewrite Hf. apply list_elem_of_here. }
  apply list_elem_of_filter in Hin as [Hlid Hc].
  destruct (call_lid_held w c Hwf Hc) as (R & HR & Heq).
  destruct (Hun _ _ HR). congruence.
Qed.

(** C2. After the registry has answered [get(k, loaderA)] with a Resource,
    every later [get(k, loaderB)] on that registry, whatever happened in
    between, returns that same Resource and does nothing else than log the
    key. The Resource keeps the loader it was constructed with, and every
    call it ever makes is to that loader. If no Resource holds [loaderB] at
    the second request and nobody hands [loaderB] in again, [loaderB] is
    never called. *)
Theorem registry_unique pre mid post g id lA lB rA :
  (group_get g id lA (exec pre init)).2 = Returned (VResource rA) →
  let w1 := (group_get g id lA (exec pre init)).1 in
  let w2 := exec mid w1 in
  let w3 := (group_get g id lB w2).1 in
  group_get g id lB w2 =
    ({| resources := resources w2; promises := promises w2; jobs := jobs w2;
        groups := groups w2; calls := calls w2;
        console := console w2 ++ [id] |},
     Returned (VResource rA)) ∧
  (∃ RA R3,
     resources w1 !! rA = Some RA ∧
     (resources (exec pre init) !! rA = None → RA = new_Resource lA) ∧
     resources (exec post w3) !! rA = Some R3 ∧
     loader R3 = loader RA ∧
     ∀ c, c ∈ calls_of rA (calls (exec post w3)) → c_lid c = l_id (loader RA)) ∧
  (unheld (l_id lB) w2 → Forall (brings_not (l_id lB)) post →
   times_called (l_id lB) (calls (exec post w3)) = 0).
Proof.
  intros Hret w1 w2 w3.
  pose proof (wf_reachable pre) as Hwf. set (w := exec pre init) in *.
  assert (wf w1) as Hwf1 by (by apply wf_group_get).
  assert (wf w2) as Hwf2 by (by apply wf_exec).
  assert (wf w3) as Hwf3 by (by apply wf_group_get).
  destruct (group_get_returns g id lA w rA Hwf Hret)
    as (tbl & RA & Hg & HRA & Hnew & _ & tbl1 & Hg1 & Hid1).
  fold w1 in HRA, Hg1.
  destruct (exec_group_entry mid w1 g tbl1 id rA Hg1 Hid1)
    as (tbl2 & Hg2 & Hid2). fold w2 in Hg2.
  assert (group_get g id lB w2 =
    ({| resources := resources w2; promises := promises w2; jobs := jobs w2;
        groups := groups w2; calls := calls w2;
        console := console w2 ++ [id] |},
     Returned (VResource rA))) as Hsecond.
  { unfold group_get. by rewrite Hg2, Hid2. }
  split; [done|]. split.
  - destruct (exec_resource mid w1 rA RA HRA) as (R2 & HR2 & Hl2 & _).
    fold w2 in HR2.
    assert (resources w3 !! rA = Some R2) as HR3.
    { unfold w3. by rewrite Hsecond. }
    destruct (exec_resource post w3 rA R2 HR3) as (R3 & HR3' & Hl3 & _).
    exists RA, R3. split_and!; try done.
    + intros Hnone. by destruct (Hnew Hnone).
    + congruence.
    + intros c Hin.
      assert (c_rid c = rA ∧ c ∈ calls (exec post w3)) as [Hrid Hc].
      { unfold calls_of in Hin. by apply list_elem_of_filter in Hin. }
      destruct (call_lid_held _ c (wf_exec post w3 Hwf3) Hc) as (R & HR & ->).
      rewrite Hrid in HR. congruence.
  - intros Hun Hno. apply unheld_never_called; [by apply wf_exec|].
    apply exec_unheld; [|done].
    intros r R HR. unfold w3 in HR. rewrite Hsecond in HR. by eapply Hun.
Qed.

Lemma registry_unique_witness :
  let pre := [ACreateGroup] in
  let mid := [ALoad 0; AGroupGet 0 "other" pending_loader; ATick] in
  let post := [ALoad 0; ALoad 1; ATick; ATick; ARead 0] in
  let w1 := (group_get 0 "k" pending_loader (exec pre init)).1 in
  let w2 := exec mid w1 in
  let w3 := (group_get 0 "k" other_loader w2).1 in
  group_get 0 "k" other_loader w2 =
    ({| resources := resources w2; promises := promises w2; jobs := jobs w2;
        groups := groups w2; calls := calls w2;
        console := console w2 ++ ["k"] |},
     Returned (VResource 0)) ∧
  (∃ RA R3,
     resources w1 !! 0 = Some RA ∧
     (resources (exec pre init) !! 0 = None → RA = new_Resource pending_loader) ∧
     resources (exec post w3) !! 0 = Some R3 ∧
     loader R3 = loader RA ∧
     ∀ c, c ∈ calls_of 0 (calls (exec post w3)) → c_lid c = l_id (loader RA)) ∧
  (unheld (l_id other_loader) w2 →
   Forall (brings_not (l_id other_loader)) post →
   times_called (l_id other_loader) (calls (exec post w3)) = 0).
Proof.
  intros pre mid post.
  apply (registry_unique pre mid post 0 "k" pending_loader other_loader 0).
  reflexivity.
Defined.

(** C7. The registry's [get] calls no loader, makes no promise and queues
    no job. A Resource it constructs is unstarted. Whatever happens next,
    the loader of the returned Resource is not called until [load()] is
    called on that Resource. *)
Theorem group_get_does_not_load pre g id l r acts :
  (group_get g id l (exec pre init)).2 = Returned (VResource r) →
  Forall (λ a, a ≠ ALoad r) acts →
  calls (group_get g id l (exec pre init)).1 = calls (exec pre init) ∧
  promises (group_get g id l (exec pre init)).1 = promises (exec pre init) ∧
  jobs (group_get g id l (exec pre init)).1 = jobs (exec pre init) ∧
  (resources (exec pre init) !! r = None →
   resources (group_get g id l (exec pre init)).1 !! r =
     Some (new_Resource l) ∧
   invocations (exec acts (group_get g id l (exec pre init)).1) r = 0) ∧
  invocations (exec acts (group_get g id l (exec pre init)).1) r =
    invocations (exec pre init) r.
Proof.
  intros Hret Hno.
  pose proof (wf_reachable pre) as Hwf. set (w := exec pre init) in *.
  destruct (group_get_returns g id l w r Hwf Hret)
    as (tbl & R & Hg & HR & Hnew & _).
  assert (calls (group_get g id l w).1 = calls w ∧
          promises (group_get g id l w).1 = promises w ∧
          jobs (group_get g id l w).1 = jobs w) as (Hc & Hp & Hj).
  { unfold group_get. rewrite Hg. by destruct (tbl !! id). }
  assert (invocations (exec acts (group_get g id l w).1) r = invocations w r)
    as Hinv.
  { unfold invocations. by rewrite exec_calls_of, Hc. }
  split_and!; try done.
  intros Hnone. destruct (Hnew Hnone) as [_ ->]. split; [done|].
  rewrite Hinv. unfold invocations.
  pose proof (wf_res w Hwf r) as Hres. unfold res_ok in Hres.
  rewrite Hnone in Hres. destruct Hres as [-> _]. done.
Qed.

Lemma group_get_does_not_load_witness :
  let pre := [ACreateGroup] in
  let acts := [ARead 0; AGet 0; AGroupGet 0 "dataset/42" pending_loader;
               ATick] in
  let w' := (group_get 0 "dataset/42" pending_loader (exec pre init)).1 in
  calls w' = calls (exec pre init) ∧
  promises w' = promises (exec pre init) ∧
  jobs w' = jobs (exec pre init) ∧
  (resources (exec pre init) !! 0 = None →
   resources w' !! 0 = Some (new_Resource pending_loader) ∧
   invocations (exec acts w') 0 = 0) ∧
  invocations (exec acts w') 0 = invocations (exec pre init) 0.
Proof.
  intros pre acts w'.
  apply (group_get_does_not_load pre 0 "dataset/42" pending_loader 0 acts).
  - reflexivity.
  - repeat constructor; discriminate.
Defined.

(** ** Terminal states *)

(** C3 (amended). Take a Resource whose loader's promise rejected with an
    error [e] that is neither [null] nor [undefined], at a moment when the
    Resource's two reaction jobs have run. From then on, after any further
    activity, [read()] throws [e] itself, leaves the world as it is, and
    the loader has not been called again. *)
Theorem read_replays_error pre acts r R p0 e :
  resources (exec pre init) !! r = Some R →
  loader_promise (exec pre init) r = Some p0 →
  pstate_at (exec pre init) p0 = Settled (Rejected e) →
  jobs_of r (jobs (exec pre init)) = [] →
  nullish e = false →
  read r (exec acts (exec pre init)) = (exec acts (exec pre init), Threw e) ∧
  invocations (exec acts (exec pre init)) r = invocations (exec pre init) r.
Proof.
  intros HR Hlp Hp0 Hidle He.
  pose proof (wf_reachable pre) as Hwf. set (w := exec pre init) in *.
  pose proof (loader_promise_inv w r R p0 Hwf HR Hlp) as Hh.
  destruct (started_inv w r R _ Hwf HR Hh) as (q0 & st & Hq & _ & Hchain).
  assert (q0 = p0) as -> by lia.
  rewrite (chain_settled_idle w r R p0 st _ Hchain Hp0 Hidle) in Hchain.
  destruct (exec_chain acts w r R p0 _ Hwf HR Hh Hchain)
    as (R' & st' & HR' & Hh' & _ & Hchain' & Hle).
  simpl in Hle. subst st'.
  destruct Hchain' as (_ & _ & _ & _ & Hres & Herr). simpl in Hres, Herr.
  split.
  - rewrite (read_eval r _ R' HR'), Hres, Herr, He. done.
  - unfold invocations. by erewrite exec_calls_started.
Qed.

Lemma read_replays_error_witness :
  let pre := [ANew pending_loader; ALoad 0;
              ASettle 0 (Rejected (VStr "network error")); ATick; ATick] in
  let acts := [ARead 0; ALoad 0; ARead 0; AGet 0] in
  read 0 (exec acts (exec pre init)) =
    (exec acts (exec pre init), Threw (VStr "network error")) ∧
  invocations (exec acts (exec pre init)) 0 = invocations (exec pre init) 0.
Proof.
  intros pre acts.
  apply (read_replays_error pre acts 0
           {| error := VStr "network error"; promise := Some 2;
              result := VNull; loader := pending_loader |} 0);
    reflexivity.
Defined.

(** C3, as stated, fails twice over. A loader may reject with [null]; the
    failure callback then stores [null], which [read()] takes for "no
    error", and [read()] throws the settled promise. And right after the
    loader's promise rejected, before the reaction jobs have run, [read()]
    still throws the waiting promise. *)
Lemma read_replays_error_counterexample :
  (let w := exec [ANew (fails_with VNull); ALoad 0; ATick; ATick] init in
   loader_promise w 0 = Some 0 ∧
   pstate_at w 0 = Settled (Rejected VNull) ∧
   jobs w = [] ∧
   read 0 w = (w, Threw (VPromise 2)) ∧
   read 0 w ≠ (w, Threw VNull)) ∧
  (let w := exec [ANew pending_loader; ALoad 0;
                  ASettle 0 (Rejected (VStr "network error"))] init in
   loader_promise w 0 = Some 0 ∧
   pstate_at w 0 = Settled (Rejected (VStr "network error")) ∧
   read 0 w = (w, Threw (VPromise 2)) ∧
   read 0 w ≠ (w, Threw (VStr "network error"))).
Proof. vm_compute. repeat split; congruence. Qed.

(** C4 (amended). Once a Resource has resolved with [v], then after any
    further activity [load()] returns the stored handle, which yields [v],
    and changes nothing; the loader has not been called again; and, when
    [v] is neither [null] nor [undefined], [read()] returns [v]. *)
Theorem resolved_idempotent pre acts r R v :
  resources (exec pre init) !! r = Some R →
  state_of (exec pre init) R = Resolved v →
  ∃ h,
    promise R = Some h ∧
    load r (exec acts (exec pre init)) =
      (exec acts (exec pre init), Returned (VPromise h)) ∧
    yields (exec acts (exec pre init)) h v ∧
    (nullish v = false →
     read r (exec acts (exec pre init)) =
       (exec acts (exec pre init), Returned v)) ∧
    invocations (exec acts (exec pre init)) r = invocations (exec pre init) r.
Proof.
  intros HR Hst.
  pose proof (wf_reachable pre) as Hwf. set (w := exec pre init) in *.
  destruct (promise R) as [h|] eqn:Hh; [|by unfold state_of in Hst; rewrite Hh in Hst].
  destruct (started_inv w r R _ Hwf HR Hh) as (p0 & st & -> & _ & Hchain).
  rewrite (state_of_chain w r R p0 st Hh Hchain) in Hst.
  destruct (exec_chain acts w r R p0 _ Hwf HR Hh Hchain)
    as (R' & st' & HR' & Hh' & _ & Hchain' & Hle).
  pose proof (stage_le_resolved _ _ _ Hle Hst) as Hst'.
  destruct (chain_resolved_yields _ r R' p0 st' v Hchain' Hst')
    as (Hy & Hres & Herr).
  exists (S (S p0)). split_and!; try done.
  - by apply (load_started r _ R').
  - intros Hv. rewrite (read_eval r _ R' HR'), Hres, Hv. done.
  - unfold invocations. by erewrite exec_calls_started.
Qed.

Lemma resolved_idempotent_witness :
  let pre := [ANew pending_loader; ALoad 0;
              ASettle 0 (Fulfilled (VStr "cats")); ATick] in
  let acts := [ARead 0; ALoad 0; ATick; ALoad 0] in
  ∃ h,
    Some 2 = Some h ∧
    load 0 (exec acts (exec pre init)) =
      (exec acts (exec pre init), Returned (VPromise h)) ∧
    yields (exec acts (exec pre init)) h (VStr "cats") ∧
    (nullish (VStr "cats") = false →
     read 0 (exec acts (exec pre init)) =
       (exec acts (exec pre init), Returned (VStr "cats"))) ∧
    invocations (exec acts (exec pre init)) 0 = invocations (exec pre init) 0.
Proof.
  intros pre acts.
  apply (resolved_idempotent pre acts 0
           {| error := VNull; promise := Some 2;
              result := VStr "cats"; loader := pending_loader |}
           (VStr "cats"));
    reflexivity.
Defined.

(** C4, as stated, fails for a loader that resolves with [null]: the
    Resource has resolved, yet [read()] throws the fulfilled promise. *)
Lemma resolved_idempotent_counterexample :
  let w := exec [ANew (resolves_with VNull); ALoad 0; ATick; ATick] init in
  let R := {| error := VNull; promise := Some 2; result := VNull;
              loader := resolves_with VNull |} in
  resources w !! 0 = Some R ∧
  state_of w R = Resolved VNull ∧
  pstate_at w 2 = Settled (Fulfilled VNull) ∧
  read 0 w = (w, Threw (VPromise 2)) ∧
  read 0 w ≠ (w, Returned VNull).
Proof. vm_compute. repeat split; congruence. Qed.

(** ** The synchronous probes *)

(** C5. While a Resource is pending, that is [load()] has been called and
    the loader's promise has not settled, [read()] throws the promise that
    [load()] returns: a promise, still waiting, never [null] and never a
    returned value. *)
Theorem read_pending_not_ready pre r R p0 :
  resources (exec pre init) !! r = Some R →
  loader_promise (exec pre init) r = Some p0 →
  pstate_at (exec pre init) p0 = Waiting →
  ∃ h,
    promise R = Some h ∧
    read r (exec pre init) = (exec pre init, Threw (VPromise h)) ∧
    load r (exec pre init) = (exec pre init, Returned (VPromise h)) ∧
    pstate_at (exec pre init) h = Waiting.
Proof.
  intros HR Hlp Hp0.
  pose proof (wf_reachable pre) as Hwf. set (w := exec pre init) in *.
  pose proof (loader_promise_inv w r R p0 Hwf HR Hlp) as Hh.
  destruct (started_inv w r R _ Hwf HR Hh) as (q0 & st & Hq & _ & Hchain).
  assert (q0 = p0) as -> by lia.
  rewrite (chain_waiting w r R p0 st Hchain Hp0) in Hchain.
  destruct Hchain as (_ & _ & H2 & _ & Hres & Herr). simpl in *.
  exists (S (S p0)). split_and!; try done.
  - rewrite (read_eval r w R HR), Hres, Herr, Hh. done.
  - by apply (load_started r w R).
  - by rewrite (pstate_at_lookup _ _ _ H2).
Qed.

Lemma read_pending_not_ready_witness :
  let pre := [ACreateGroup; AGroupGet 0 "dataset/42" pending_loader;
              ALoad 0; ATick] in
  ∃ h,
    Some 2 = Some h ∧
    read 0 (exec pre init) = (exec pre init, Threw (VPromise h)) ∧
    load 0 (exec pre init) = (exec pre init, Returned (VPromise h)) ∧
    pstate_at (exec pre init) h = Waiting.
Proof.
  intros pre.
  apply (read_pending_not_ready pre 0
           {| error := VNull; promise := Some 2; result := VNull;
              loader := pending_loader |} 0);
    reflexivity.
Defined.

(** C6 (amended). [get()] never changes the world, so it never starts a
    load, and it always returns. It returns the stored value when the
    Resource has resolved with a value that is neither [null] nor
    [undefined], and [undefined] in every other case: unstarted, pending,
    failed, or resolved with [null] or [undefined]. *)
Theorem get_peeks pre r R :
  resources (exec pre init) !! r = Some R →
  get r (exec pre init) =
    (exec pre init,
     match state_of (exec pre init) R with
     | Resolved v => if nullish v then Returned VUndefined else Returned v
     | Unstarted | Pending | Failed _ => Returned VUndefined
     end).
Proof.
  intros HR.
  pose proof (wf_reachable pre) as Hwf. set (w := exec pre init) in *.
  rewrite (get_eval r w R HR).
  destruct (promise R) as [h|] eqn:Hh.
  - destruct (started_inv w r R _ Hwf HR Hh) as (p0 & st & -> & _ & Hchain).
    rewrite (state_of_chain w r R p0 st Hh Hchain).
    destruct Hchain as (_ & _ & _ & _ & -> & _).
    by destruct st as [|[v|e]|[v|e]|[v|e]].
  - destruct (unstarted_inv w r R Hwf HR Hh) as (_ & _ & -> & _).
    unfold state_of. by rewrite Hh.
Qed.

Lemma get_peeks_witness :
  let pre := [ANew pending_loader; ALoad 0;
              ASettle 0 (Fulfilled (VNum 42)); ATick] in
  get 0 (exec pre init) = (exec pre init, Returned (VNum 42)).
Proof.
  intros pre.
  apply (get_peeks pre 0
           {| error := VNull; promise := Some 2; result := VNum 42;
              loader := pending_loader |}).
  reflexivity.
Defined.

(** C6, as stated, fails for a Resource that has resolved with [null]:
    [get()] returns [undefined], not the stored value. *)
Lemma get_peeks_counterexample :
  let w := exec [ANew (resolves_with VNull); ALoad 0; ATick; ATick] init in
  let R := {| error := VNull; promise := Some 2; result := VNull;
              loader := resolves_with VNull |} in
  resources w !! 0 = Some R ∧
  state_of w R = Resolved VNull ∧
  get 0 w = (w, Returned VUndefined) ∧
  get 0 w ≠ (w, Returned VNull).
Proof. vm_compute. repeat split; congruence. Qed.




(** A Resource on which [load] was never called has no handle. *)
Lemma never_loaded_unstarted pre r R :
  Forall (λ a, a ≠ ALoad r) pre →
  resources (exec pre init) !! r = Some R → promise R = None.
Proof.
  revert R. induction pre as [|a pre IH] using rev_ind; intros R Hno HR.
  - by destruct r.
  - apply Forall_app in Hno as [Hpre Ha]. rewrite Forall_singleton in Ha.
    rewrite exec_snoc in HR.
    destruct (step_resource_back _ _ _ _ HR)
      as [(R0 & HR0 & _ & [Hp|(_ & _ & Hload)])|(_ & l & _ & ->)]; try done.
    rewrite Hp. by apply IH.
Qed.

(** C9. On a Resource on which [load()] has never been called, [read()]
    throws the [null] held in the field [promise]: not a promise to wait
    on, not an error of its own. The world is unchanged. *)
Theorem read_unstarted_throws_null pre r R :
  resources (exec pre init) !! r = Some R →
  Forall (λ a, a ≠ ALoad r) pre →
  promise R = None ∧
  read r (exec pre init) = (exec pre init, Threw VNull).
Proof.
  intros HR Hno.
  pose proof (never_loaded_unstarted pre r R Hno HR) as Hh.
  split; [done|].
  destruct (unstarted_inv _ r R (wf_reachable pre) HR Hh)
    as (_ & _ & Hres & Herr).
  by rewrite (read_eval r _ R HR), Hres, Herr, Hh.
Qed.

Lemma read_unstarted_throws_null_witness :
  let pre := [ACreateGroup; AGroupGet 0 "k" pending_loader; AGet 0] in
  promise (new_Resource pending_loader) = None ∧
  read 0 (exec pre init) = (exec pre init, Threw VNull).
Proof.
  intros pre.
  apply (read_unstarted_throws_null pre 0 (new_Resource pending_loader)).
  - reflexivity.
  - repeat constructor; discriminate.
Defined.

(** ** A loader that throws *)

(** C10. When the loader throws instead of returning a promise, [load()]
    throws the same value and leaves the Resource as it was, its field
    [promise] still [null]; the next [load()] calls the loader again. *)
Theorem load_sync_throw_retries pre r R e :
  resources (exec pre init) !! r = Some R →
  promise R = None →
  l_run (loader R)
    (times_called (l_id (loader R)) (calls (exec pre init))) = LThrow e →
  (load r (exec pre init)).2 = Threw e ∧
  resources (load r (exec pre init)).1 !! r = Some R ∧
  invocations (load r (exec pre init)).1 r = S (invocations (exec pre init) r) ∧
  invocations (load r (load r (exec pre init)).1).1 r =
    S (S (invocations (exec pre init) r)).
Proof.
  intros HR Hh Hrun. set (w := exec pre init) in *.
  assert (∀ w0, resources w0 !! r = Some R →
            invocations (load r w0).1 r = S (invocations w0 r)) as Hinc.
  { intros w0 HR0. unfold load, invocations. rewrite HR0, Hh.
    destruct (l_run (loader R) (times_called _ (calls w0))); simpl;
      rewrite calls_of_app, calls_of_one_eq, length_app; simpl; lia. }
  assert (load r w =
    ({| resources := resources w; promises := promises w; jobs := jobs w;
        groups := groups w;
        calls := calls w ++ [mkCall r (l_id (loader R)) None];
        console := console w |}, Threw e)) as Hload.
  { unfold load. by rewrite HR, Hh, Hrun. }
  split_and!.
  - by rewrite Hload.
  - by rewrite Hload.
  - by apply Hinc.
  - rewrite Hinc, Hinc; [done|done|]. by rewrite Hload.
Qed.

Lemma load_sync_throw_retries_witness :
  let pre := [ANew (throws_once (VStr "offline"))] in
  let R := new_Resource (throws_once (VStr "offline")) in
  (load 0 (exec pre init)).2 = Threw (VStr "offline") ∧
  resources (load 0 (exec pre init)).1 !! 0 = Some R ∧
  invocations (load 0 (exec pre init)).1 0 = S (invocations (exec pre init) 0) ∧
  invocations (load 0 (load 0 (exec pre init)).1).1 0 =
    S (S (invocations (exec pre init) 0)).
Proof.
  intros pre R.
  apply (load_sync_throw_retries pre 0 R (VStr "offline")); reflexivity.
Defined.

(** ** The life cycle of a Resource *)

Lemma stage_le_state st st' :
  stage_le st st' → state_le (stage_state st) (stage_state st').
Proof.
  destruct st as [|[v|e]|[v|e]|[v|e]]; simpl; intros Hle;
    destruct_or?; subst; simpl; try done;
    by destruct st' as [|[?|?]|[?|?]|[?|?]].
Qed.

Lemma state_of_started w R h : promise R = Some h → state_of w R ≠ Unstarted.
Proof.
  intros Hh. unfold state_of. rewrite Hh.
  destruct (pstate_at w h) as [|[v|e]]; try done;
    by destruct (pstate_at w (h - 1)) as [|[?|?]].
Qed.

Lemma state_of_load_fresh r w R R' :
  resources w !! r = Some R → promise R = None →
  resources (load r w).1 !! r = Some R' →
  state_of (load r w).1 R' = Unstarted ∨ state_of (load r w).1 R' = Pending.
Proof.
  intros HR Hh. unfold load. rewrite HR, Hh.
  destruct (l_run _ _) as [e|st]; simpl.
  - rewrite HR. intros ?. simplify_eq. left. unfold state_of. by rewrite Hh.
  - rewrite list_lookup_alter_eq, HR. simpl. intros ?. simplify_eq. right.
    unfold state_of, pstate_at. simpl.
    replace (S (S (length (promises w))) - 1) with (S (length (promises w)))
      by lia.
    rewrite (lookup_app_r _ _ (S (S (length (promises w))))) by lia.
    rewrite (lookup_app_r _ _ (S (length (promises w)))) by lia.
    replace (S (S (length (promises w))) - length (promises w)) with 2 by lia.
    replace (S (length (promises w)) - length (promises w)) with 1 by lia.
    done.
Qed.

(** X1. The state of a Resource only moves forward. One action takes an
    unstarted Resource to unstarted or pending, never straight to a
    terminal state, and leaves a resolved or failed Resource exactly as it
    is; over a whole program a started Resource is never unstarted again
    and a terminal state, with its value or error, is kept for ever. *)
Theorem state_moves_forward pre a acts r R R1 R2 :
  resources (exec pre init) !! r = Some R →
  resources (step a (exec pre init)).1 !! r = Some R1 →
  resources (exec acts (exec pre init)) !! r = Some R2 →
  state_step (state_of (exec pre init) R)
             (state_of (step a (exec pre init)).1 R1) ∧
  state_le (state_of (exec pre init) R)
           (state_of (exec acts (exec pre init)) R2).
Proof.
  intros HR HR1 HR2.
  pose proof (wf_reachable pre) as Hwf. set (w := exec pre init) in *.
  assert (∀ acts' R', resources (exec acts' w) !! r = Some R' →
            ∀ h, promise R = Some h →
            state_le (state_of w R) (state_of (exec acts' w) R')) as Hmulti.
  { intros acts' R' HR' h Hh.
    destruct (started_inv w r R _ Hwf HR Hh) as (p0 & st & -> & _ & Hchain).
    destruct (exec_chain acts' w r R p0 _ Hwf HR Hh Hchain)
      as (R'' & st' & HR'' & Hh'' & _ & Hchain' & Hle).
    rewrite HR' in HR''. simplify_eq.
    rewrite (state_of_chain w r R p0 st Hh Hchain).
    rewrite (state_of_chain _ r R'' p0 st' Hh'' Hchain').
    by apply stage_le_state. }
  split.
  - destruct (promise R) as [h|] eqn:Hh.
    + specialize (Hmulti [a] R1 HR1 h eq_refl).
      change (exec [a] w) with (step a w).1 in Hmulti.
      pose proof (state_of_started w R h Hh) as Hne.
      destruct (state_of w R); simpl in *; done.
    + assert (state_of w R = Unstarted) as -> by (unfold state_of; by rewrite Hh).
      simpl.
      destruct (step_resource_back _ _ _ _ HR1)
        as [(R0 & HR0 & _ & [Hp|(_ & _ & ->)])|(Hnone & _)].
      * left. unfold state_of. rewrite Hp. rewrite HR in HR0.
        simplify_eq. by rewrite Hh.
      * by apply (state_of_load_fresh r w R R1).
      * by rewrite HR in Hnone.
  - destruct (promise R) as [h|] eqn:Hh.
    + by apply (Hmulti acts R2 HR2 h).
    + unfold state_of at 1. by rewrite Hh.
Qed.

Lemma state_moves_forward_witness :
  let pre := [ANew (fails_with (VStr "network error")); ALoad 0; ATick] in
  let w := exec pre init in
  let R := {| error := VNull; promise := Some 2; result := VNull;
              loader := fails_with (VStr "network error") |} in
  let R1 := {| error := VStr "network error"; promise := Some 2;
               result := VNull;
               loader := fails_with (VStr "network error") |} in
  state_step (state_of w R) (state_of (step ATick w).1 R1) ∧
  state_le (state_of w R) (state_of (exec [ATick; ALoad 0; ATick] w) R1).
Proof.
  intros pre w R R1.
  apply (state_moves_forward pre ATick [ATick; ALoad 0; ATick] 0 R R1 R1);
    reflexivity.
Defined.

(** X2. The two fields are never both set, and what they hold comes from
    the loader. A non-null [result] is the value the loader's promise was
    fulfilled with, [error] is then [null], and [read()] and [get()] both
    return it. A non-null [error] is the error the loader's promise was
    rejected with, [result] is then [null], [read()] throws it and [get()]
    returns [undefined]. *)
Theorem probe_provenance pre r R :
  resources (exec pre init) !! r = Some R →
  (nullish (result R) = false →
   error R = VNull ∧
   read r (exec pre init) = (exec pre init, Returned (result R)) ∧
   get r (exec pre init) = (exec pre init, Returned (result R)) ∧
   ∃ p0, loader_promise (exec pre init) r = Some p0 ∧
         pstate_at (exec pre init) p0 = Settled (Fulfilled (result R))) ∧
  (nullish (error R) = false →
   result R = VNull ∧
   read r (exec pre init) = (exec pre init, Threw (error R)) ∧
   get r (exec pre init) = (exec pre init, Returned VUndefined) ∧
   ∃ p0, loader_promise (exec pre init) r = Some p0 ∧
         pstate_at (exec pre init) p0 = Settled (Rejected (error R))).
Proof.
  intros HR.
  pose proof (wf_reachable pre) as Hwf. set (w := exec pre init) in *.
  rewrite (read_eval r w R HR), (get_eval r w R HR).
  destruct (promise R) as [h|] eqn:Hh.
  - destruct (started_inv w r R _ Hwf HR Hh) as (p0 & st & -> & _ & Hchain).
    pose proof (loader_promise_started w r R p0 Hwf HR Hh) as Hlp.
    destruct Hchain as (H0 & _ & _ & _ & Hres & Herr).
    apply pstate_at_lookup in H0.
    split; intros Hset.
    + rewrite Hset. simpl. rewrite Hres in Hset.
      destruct st as [|[v|e]|[v|e]|[v|e]]; simpl in *; try done;
        (split_and!; [done..|]); exists p0; by rewrite Hres.
    + rewrite Herr in Hset.
      destruct st as [|[v|e]|[v|e]|[v|e]]; simpl in *; try done.
      rewrite Hres, Herr, Hset. simpl.
      split_and!; try done. by exists p0.
  - destruct (unstarted_inv w r R Hwf HR Hh) as (_ & _ & Hres & Herr).
    rewrite Hres, Herr. by split.
Qed.

Lemma probe_provenance_witness :
  let pre := [ANew (resolves_with (VStr "cats")); ALoad 0; ATick] in
  let R := {| error := VNull; promise := Some 2; result := VStr "cats";
              loader := resolves_with (VStr "cats") |} in
  (nullish (result R) = false →
   error R = VNull ∧
   read 0 (exec pre init) = (exec pre init, Returned (result R)) ∧
   get 0 (exec pre init) = (exec pre init, Returned (result R)) ∧
   ∃ p0, loader_promise (exec pre init) 0 = Some p0 ∧
         pstate_at (exec pre init) p0 = Settled (Fulfilled (result R))) ∧
  (nullish (error R) = false →
   result R = VNull ∧
   read 0 (exec pre init) = (exec pre init, Threw (error R)) ∧
   get 0 (exec pre init) = (exec pre init, Returned VUndefined) ∧
   ∃ p0, loader_promise (exec pre init) 0 = Some p0 ∧
         pstate_at (exec pre init) p0 = Settled (Rejected (error R))).
Proof.
  intros pre R. apply (probe_provenance pre 0 R). reflexivity.
Defined.

(** X3. The promise [load()] returns settles exactly as the loader's promise
    did: the success callback hands the value on and the failure callback
    rethrows the error. By the time it is settled the value or the error
    is stored in the Resource. *)
Theorem handle_settles_as_loader pre r R h s :
  resources (exec pre init) !! r = Some R →
  promise R = Some h →
  pstate_at (exec pre init) h = Settled s →
  (∃ p0, loader_promise (exec pre init) r = Some p0 ∧
         pstate_at (exec pre init) p0 = Settled s) ∧
  match s with
  | Fulfilled v =>
      result R = v ∧ error R = VNull ∧
      state_of (exec pre init) R = Resolved v
  | Rejected e =>
      result R = VNull ∧ error R = e ∧
      state_of (exec pre init) R = Failed e
  end.
Proof.
  intros HR Hh Hs.
  pose proof (wf_reachable pre) as Hwf. set (w := exec pre init) in *.
  destruct (started_inv w r R _ Hwf HR Hh) as (p0 & st & -> & _ & Hchain).
  pose proof (loader_promise_started w r R p0 Hwf HR Hh) as Hlp.
  rewrite (state_of_chain w r R p0 st Hh Hchain).
  destruct Hchain as (H0 & _ & H2 & _ & Hres & Herr).
  apply pstate_at_lookup in H0, H2. rewrite H2 in Hs.
  destruct st as [|s'|s'|s']; simpl in *; simplify_eq.
  split; [by exists p0|]. by destruct s.
Qed.

Lemma handle_settles_as_loader_witness :
  let pre := [ANew (fails_with (VStr "network error")); ALoad 0;
              ATick; ATick] in
  let R := {| error := VStr "network error"; promise := Some 2;
              result := VNull;
              loader := fails_with (VStr "network error") |} in
  (∃ p0, loader_promise (exec pre init) 0 = Some p0 ∧
         pstate_at (exec pre init) p0 =
           Settled (Rejected (VStr "network error"))) ∧
  result R = VNull ∧ error R = VStr "network error" ∧
  state_of (exec pre init) R = Failed (VStr "network error").
Proof.
  intros pre R.
  apply (handle_settles_as_loader pre 0 R 2 (Rejected (VStr "network error")));
    reflexivity.
Defined.

(** ** Delivery *)

Lemma work_app js js' : work (js ++ js') = work js + work js'.
Proof.
  induction js as [|j js IH]; simpl; [done|]. rewrite IH. lia.
Qed.

Lemma work_nil js : work js = 0 → js = [].
Proof.
  destruct js as [|[[r c|r c] s] js]; [done|..]; simpl;
    unfold job_work; simpl; lia.
Qed.

(** A turn of the queue does one step of work. *)
Lemma tick_work w k s js :
  wf w → jobs w = (k, s) :: js →
  S (work (jobs (tick w))) = work (jobs w).
Proof.
  intros Hwf Hjobs. unfold tick. rewrite Hjobs.
  destruct (job_head_inv w k s js Hwf Hjobs)
    as (R & p0 & HR & Hh & Hjs & [[Hk Hchain]|[Hk Hchain]]);
    set (r := reaction_owner k) in *; rewrite Hk;
    destruct Hchain as (_ & H1 & H2 & _).
  - destruct s as [v|e]; simpl;
      (erewrite settle_promise_waiting by exact H1); simpl;
      rewrite work_app; simpl; unfold job_work; simpl; lia.
  - destruct s as [v|e]; simpl;
      (erewrite settle_promise_waiting by exact H2); simpl;
      rewrite work_app; simpl; unfold job_work; simpl; lia.
Qed.

Lemma drain n w :
  wf w → work (jobs w) = n → jobs (exec (replicate n ATick) w) = [].
Proof.
  revert w. induction n as [|n IH]; intros w Hwf Hwork.
  - by apply work_nil.
  - destruct (jobs w) as [|[k s] js] eqn:Hjobs; [done|].
    change (exec (replicate (S n) ATick) w)
      with (exec (replicate n ATick) (tick w)).
    apply IH; [by apply wf_tick|].
    pose proof (tick_work w k s js Hwf Hjobs) as Ht.
    rewrite Hjobs in Ht. simpl in *. lia.
Qed.

(** X4. The job queue drains: running as many turns as there is work in the
    queue, at most two per queued job, empties it. Every Resource whose
    loader's promise had settled is then in the matching terminal state,
    and the promise [load()] returned is settled in the same way. *)
Theorem queue_drains pre :
  jobs (exec (replicate (work (jobs (exec pre init))) ATick) (exec pre init))
    = [] ∧
  work (jobs (exec pre init)) ≤ 2 * length (jobs (exec pre init)) ∧
  ∀ r R p0 s,
    resources (exec pre init) !! r = Some R →
    loader_promise (exec pre init) r = Some p0 →
    pstate_at (exec pre init) p0 = Settled s →
    ∃ R' h,
      resources
        (exec (replicate (work (jobs (exec pre init))) ATick) (exec pre init))
        !! r = Some R' ∧
      promise R' = Some h ∧
      pstate_at
        (exec (replicate (work (jobs (exec pre init))) ATick) (exec pre init))
        h = Settled s ∧
      state_of
        (exec (replicate (work (jobs (exec pre init))) ATick) (exec pre init))
        R' = terminal s.
Proof.
  pose proof (wf_reachable pre) as Hwf. set (w := exec pre init) in *.
  pose proof (drain (work (jobs w)) w Hwf eq_refl) as Hdrain.
  set (acts := replicate (work (jobs w)) ATick) in *.
  split; [done|]. split.
  { clear. induction (jobs w) as [|[[? ?|? ?] ?] js IH]; simpl;
      unfold job_work; simpl in *; lia. }
  intros r R p0 s HR Hlp Hp0.
  pose proof (loader_promise_inv w r R p0 Hwf HR Hlp) as Hh.
  destruct (started_inv w r R _ Hwf HR Hh) as (q0 & st & Hq & _ & Hchain).
  assert (q0 = p0) as -> by lia.
  destruct (exec_chain acts w r R p0 _ Hwf HR Hh Hchain)
    as (R' & st' & HR' & Hh' & _ & Hchain' & _).
  assert (st' = StDone s) as ->.
  { apply (chain_settled_idle _ r R' p0 st' s Hchain').
    - by apply exec_pstate.
    - by rewrite Hdrain. }
  exists R', (S (S p0)). split_and!; try done.
  - destruct Hchain' as (_ & _ & H2 & _). by apply pstate_at_lookup in H2.
  - rewrite (state_of_chain _ r R' p0 _ Hh' Hchain'). by destruct s.
Qed.

Lemma queue_drains_witness :
  let pre := [ANew pending_loader; ANew (fails_with (VStr "x")); ALoad 0;
              ALoad 1; ASettle 0 (Fulfilled (VNum 7))] in
  jobs (exec (replicate (work (jobs (exec pre init))) ATick) (exec pre init))
    = [] ∧
  work (jobs (exec pre init)) ≤ 2 * length (jobs (exec pre init)) ∧
  ∀ r R p0 s,
    resources (exec pre init) !! r = Some R →
    loader_promise (exec pre init) r = Some p0 →
    pstate_at (exec pre init) p0 = Settled s →
    ∃ R' h,
      resources
        (exec (replicate (work (jobs (exec pre init))) ATick) (exec pre init))
        !! r = Some R' ∧
      promise R' = Some h ∧
      pstate_at
        (exec (replicate (work (jobs (exec pre init))) ATick) (exec pre init))
        h = Settled s ∧
      state_of
        (exec (replicate (work (jobs (exec pre init))) ATick) (exec pre init))
        R' = terminal s.
Proof.
  intros pre. apply (queue_drains pre).
Defined.

(** ** Independence *)

Lemma settle_promise_pstate_ne q s w p :
  q ≠ p → pstate_at (settle_promise q s w) p = pstate_at w p.
Proof.
  intros Hne. unfold pstate_at, settle_promise.
  destruct (promises w !! q) as [[[|s0] ks]|]; try done.
  simpl. by rewrite list_lookup_insert_ne.
Qed.

(** Only its own settlement takes a loader's promise out of waiting. *)
Lemma step_waiting a w r R p0 :
  wf w → resources w !! r = Some R → promise R = Some (S (S p0)) →
  pstate_at w p0 = Waiting → is_settle_of p0 a = false →
  pstate_at (step a w).1 p0 = Waiting.
Proof.
  intros Hwf HR Hh Hp0 Hno.
  destruct (started_inv w r R _ Hwf HR Hh) as (q0 & st & Hq & _ & Hchain).
  assert (q0 = p0) as -> by lia.
  rewrite (chain_waiting w r R p0 st Hchain Hp0) in Hchain.
  destruct Hchain as (H0 & _ & _ & Hj & _). simpl in Hj.
  destruct a as [l| |g id l|r'|r'|r'|q s'|]; simpl; try done.
  - unfold group_get. destruct (groups w !! g) as [tbl|]; [|done].
    by destruct (tbl !! id).
  - unfold load. destruct (resources w !! r') as [R0|]; [|done].
    destruct (promise R0); [done|].
    destruct (l_run _ _); simpl; [done|].
    unfold pstate_at in *. simpl.
    by rewrite (lookup_app_l_Some _ _ _ _ H0).
  - by rewrite get_world.
  - by rewrite read_world.
  - simpl in Hno. apply bool_decide_eq_false in Hno.
    unfold settle_external. destruct (loader_made q (calls w)); [|done].
    by rewrite settle_promise_pstate_ne.
  - unfold tick. destruct (jobs w) as [|[k s] js] eqn:Hjobs; [done|].
    destruct (job_head_inv w k s js Hwf Hjobs)
      as (Rk & pk & HRk & Hhk & _ & Hcase).
    assert (reaction_owner k ≠ r) as Hne.
    { intros Heq. rewrite <- Heq, jobs_of_cons_eq in Hj. done. }
    pose proof (wf_apart w Hwf _ _ Rk R _ _ Hne HRk HR Hhk Hh) as Hapart.
    destruct Hcase as [[Hk _]|[Hk _]]; rewrite Hk;
      destruct s as [v|e]; simpl;
      (rewrite settle_promise_pstate_ne by lia); done.
Qed.

Lemma exec_waiting acts w r R p0 :
  wf w → resources w !! r = Some R → promise R = Some (S (S p0)) →
  pstate_at w p0 = Waiting →
  Forall (λ a, is_settle_of p0 a = false) acts →
  ∃ R', resources (exec acts w) !! r = Some R' ∧
        promise R' = Some (S (S p0)) ∧
        pstate_at (exec acts w) p0 = Waiting.
Proof.
  revert w R. induction acts as [|a acts IH]; intros w R Hwf HR Hh Hp0 Hno.
  - by exists R.
  - apply Forall_cons in Hno as [Ha Hno]. rewrite exec_cons.
    destruct (step_resource a w r R HR) as (R1 & HR1 & _ & Hkeep).
    apply (IH _ R1); [by apply wf_step|done|by apply Hkeep| |done].
    by apply (step_waiting a w r R).
Qed.

(** X5. A pending Resource stays pending until its own loader's promise
    settles. Whatever else happens in between (other Resources loaded,
    resolved or failed, other keys requested, jobs run), its fields stay
    [null], [read()] keeps throwing its handle and [get()] keeps returning
    [undefined]. *)
Theorem pending_until_own_settlement pre acts r R p0 :
  resources (exec pre init) !! r = Some R →
  loader_promise (exec pre init) r = Some p0 →
  pstate_at (exec pre init) p0 = Waiting →
  Forall (λ a, is_settle_of p0 a = false) acts →
  ∃ h R',
    promise R = Some h ∧
    resources (exec acts (exec pre init)) !! r = Some R' ∧
    pstate_at (exec acts (exec pre init)) p0 = Waiting ∧
    state_of (exec acts (exec pre init)) R' = Pending ∧
    result R' = VNull ∧ error R' = VNull ∧
    read r (exec acts (exec pre init)) =
      (exec acts (exec pre init), Threw (VPromise h)) ∧
    get r (exec acts (exec pre init)) =
      (exec acts (exec pre init), Returned VUndefined).
Proof.
  intros HR Hlp Hp0 Hno.
  pose proof (wf_reachable pre) as Hwf. set (w := exec pre init) in *.
  pose proof (loader_promise_inv w r R p0 Hwf HR Hlp) as Hh.
  destruct (exec_waiting acts w r R p0 Hwf HR Hh Hp0 Hno)
    as (R' & HR' & Hh' & Hp0').
  pose proof (wf_exec acts w Hwf) as Hwf'.
  destruct (started_inv _ r R' _ Hwf' HR' Hh') as (q0 & st & Hq & _ & Hchain).
  assert (q0 = p0) as -> by lia.
  rewrite (chain_waiting _ r R' p0 st Hchain Hp0') in Hchain.
  exists (S (S p0)), R'.
  rewrite (state_of_chain _ r R' p0 _ Hh' Hchain).
  rewrite (read_eval r _ R' HR'), (get_eval r _ R' HR').
  destruct Hchain as (_ & _ & _ & _ & Hres & Herr). simpl in Hres, Herr.
  rewrite Hres, Herr, Hh'. by split_and!.
Qed.

Lemma pending_until_own_settlement_witness :
  let pre := [ACreateGroup; AGroupGet 0 "a" pending_loader;
              AGroupGet 0 "b" pending_loader; ALoad 0; ALoad 1] in
  let acts := [ASettle 3 (Rejected (VStr "network error")); ATick; ATick;
               ARead 1; AGroupGet 0 "c" (resolves_with (VNum 1)); ALoad 2;
               ATick; ATick] in
  ∃ h R',
    Some 2 = Some h ∧
    resources (exec acts (exec pre init)) !! 0 = Some R' ∧
    pstate_at (exec acts (exec pre init)) 0 = Waiting ∧
    state_of (exec acts (exec pre init)) R' = Pending ∧
    result R' = VNull ∧ error R' = VNull ∧
    read 0 (exec acts (exec pre init)) =
      (exec acts (exec pre init), Threw (VPromise h)) ∧
    get 0 (exec acts (exec pre init)) =
      (exec acts (exec pre init), Returned VUndefined).
Proof.
  intros pre acts.
  apply (pending_until_own_settlement pre acts 0
           {| error := VNull; promise := Some 2; result := VNull;
              loader := pending_loader |} 0).
  - reflexivity.
  - reflexivity.
  - reflexivity.
  - repeat constructor.
Defined.

Lemma load_groups r w : groups (load r w).1 = groups w.
Proof.
  unfold load. destruct (resources w !! r) as [R|]; [|done].
  destruct (promise R); [done|]. by destruct (l_run _ _).
Qed.

Lemma groups_inj_step a w :
  wf w → groups_inj w → groups_inj (step a w).1.
Proof.
  intros Hwf Hinj.
  destruct a as [l| |g id l|r'|r'|r'|q s'|]; simpl; try done.
  - intros g1 g2 t1 t2 k1 k2 r H1 Hk1 H2 Hk2. simpl in *.
    apply lookup_app_Some in H1 as [H1|[_ H1]];
      [|apply list_lookup_singleton_Some in H1 as [_ <-];
        by rewrite lookup_empty in Hk1].
    apply lookup_app_Some in H2 as [H2|[_ H2]];
      [|apply list_lookup_singleton_Some in H2 as [_ <-];
        by rewrite lookup_empty in Hk2].
    by apply (Hinj g1 g2 t1 t2 k1 k2 r).
  - unfold group_get. destruct (groups w !! g) as [tbl|] eqn:Hg; [|done].
    destruct (tbl !! id) as [r0|] eqn:Hid; simpl; [done|].
    assert (∀ g' (t' : gmap string nat) k' r,
      <[g := <[id := length (resources w)]> tbl]> (groups w) !! g' = Some t' →
      t' !! k' = Some r →
      (g' = g ∧ k' = id ∧ r = length (resources w)) ∨
      (r < length (resources w) ∧
       ∃ t, groups w !! g' = Some t ∧ t !! k' = Some r)) as Hcases.
    { intros g' t' k' r H Hk. destruct (decide (g' = g)) as [->|Hne].
      - rewrite list_lookup_insert_eq in H by (by eapply lookup_lt_Some).
        simplify_eq. destruct (decide (k' = id)) as [->|Hne'].
        + rewrite lookup_insert_eq in Hk. simplify_eq. by left.
        + rewrite lookup_insert_ne in Hk by done. right.
          split; [by eapply (wf_groups w Hwf)|]. by exists tbl.
      - rewrite list_lookup_insert_ne in H by done. right.
        split; [by eapply (wf_groups w Hwf)|]. by exists t'. }
    intros g1 g2 t1 t2 k1 k2 r H1 Hk1 H2 Hk2. simpl in *.
    destruct (Hcases _ _ _ _ H1 Hk1) as [(-> & -> & ->)|(Hlt1 & u1 & Hu1 & Hv1)];
      destruct (Hcases _ _ _ _ H2 Hk2) as [(-> & -> & ?)|(Hlt2 & u2 & Hu2 & Hv2)];
      try done; try lia.
    by apply (Hinj g1 g2 u1 u2 k1 k2 r).
  - unfold groups_inj. by rewrite load_groups.
  - by rewrite get_world.
  - by rewrite read_world.
  - unfold groups_inj. by rewrite settle_external_groups.
  - unfold groups_inj. by rewrite tick_groups.
Qed.

Lemma groups_inj_reachable pre : groups_inj (exec pre init).
Proof.
  induction pre as [|a pre IH] using rev_ind.
  - intros g1 g2 t1 t2 k1 k2 r H1. by destruct g1.
  - rewrite exec_snoc. apply groups_inj_step; [apply wf_reachable|done].
Qed.

(** X6. No Resource is shared between keys or between registries: if two
    requests, at any two moments, in any registries and under any keys, are
    answered with the same Resource, then they are requests for the same
    key in the same registry. *)
Theorem registry_injective pre mid g1 g2 id1 id2 l1 l2 r :
  (group_get g1 id1 l1 (exec pre init)).2 = Returned (VResource r) →
  (group_get g2 id2 l2
     (exec mid (group_get g1 id1 l1 (exec pre init)).1)).2 =
    Returned (VResource r) →
  g1 = g2 ∧ id1 = id2.
Proof.
  intros H1 H2.
  pose proof (wf_reachable pre) as Hwf. set (w := exec pre init) in *.
  set (w1 := (group_get g1 id1 l1 w).1) in *.
  assert (wf w1) as Hwf1 by (by apply wf_group_get).
  assert (wf (exec mid w1)) as Hwf2 by (by apply wf_exec).
  destruct (group_get_returns g1 id1 l1 w r Hwf H1)
    as (t0 & R1 & _ & _ & _ & _ & t1 & Hg1 & Hk1).
  fold w1 in Hg1.
  destruct (exec_group_entry mid w1 g1 t1 id1 r Hg1 Hk1) as (t1' & Hg1' & Hk1').
  destruct (group_get_returns g2 id2 l2 _ r Hwf2 H2)
    as (t2 & R2 & Hg2 & _ & _ & Hold & _).
  pose proof (groups_inj_reachable (pre ++ [AGroupGet g1 id1 l1] ++ mid))
    as Hinj.
  rewrite exec_app, exec_app in Hinj.
  change (exec [AGroupGet g1 id1 l1] (exec pre init)) with w1 in Hinj.
  pose proof (wf_groups _ Hwf2 g1 t1' id1 r Hg1' Hk1') as Hlt.
  apply lookup_lt_is_Some in Hlt as [R0 HR0].
  destruct (Hold R0 HR0) as [Hk2 _].
  by apply (Hinj g1 g2 t1' t2 id1 id2 r).
Qed.

Lemma registry_injective_witness :
  let pre := [ACreateGroup; ACreateGroup] in
  let mid := [AGroupGet 1 "k" pending_loader; ALoad 0; ATick] in
  0 = 0 ∧ "k" = "k".
Proof.
  intros pre mid.
  apply (registry_injective pre mid 0 0 "k" "k" pending_loader other_loader 0);
    reflexivity.
Defined.

(** ** Calls of the loader, for any loader *)

(** X7. Take a loader that does not call back into the cache while it
    runs; it may throw or return, differently from call to call. Then a
    Resource calls only its own loader; every call but the last threw; and
    the one call that returned a promise, if there is one, is the last: it
    is there exactly when the field [promise] is set, and the loader is
    not called after it. *)
Theorem loader_calls_shape pre r R :
  resources (exec pre init) !! r = Some R →
  ∃ thrown,
    calls_of r (calls (exec pre init)) =
      thrown ++
      match promise R with
      | Some h => [mkCall r (l_id (loader R)) (Some (h - 2))]
      | None => []
      end ∧
    Forall (λ c, c = mkCall r (l_id (loader R)) None) thrown ∧
    invocations (exec pre init) r =
      length thrown + match promise R with Some _ => 1 | None => 0 end.
Proof.
  intros HR.
  pose proof (wf_reachable pre) as Hwf. set (w := exec pre init) in *.
  unfold invocations. destruct (promise R) as [h|] eqn:Hh.
  - destruct (started_inv w r R _ Hwf HR Hh)
      as (p0 & st & -> & (thrown & Hcalls & Hthrown) & _).
    exists thrown. rewrite Hcalls, length_app. simpl.
    replace (p0 - 0) with p0 by lia. split_and!; try done.
    eapply Forall_impl; [exact Hthrown|]. by intros c [-> _].
  - destruct (unstarted_inv w r R Hwf HR Hh) as (Hthrown & _).
    exists (calls_of r (calls w)). rewrite app_nil_r.
    split; [done|]. split; [|lia].
    eapply Forall_impl; [exact Hthrown|]. by intros c [-> _].
Qed.

Lemma loader_calls_shape_witness :
  let pre := [ANew (throws_once (VStr "offline")); ALoad 0; ALoad 0;
              ALoad 0] in
  let R := {| error := VNull; promise := Some 2; result := VNull;
              loader := throws_once (VStr "offline") |} in
  ∃ thrown,
    calls_of 0 (calls (exec pre init)) =
      thrown ++ [mkCall 0 (l_id (loader R)) (Some (2 - 2))] ∧
    Forall (λ c, c = mkCall 0 (l_id (loader R)) None) thrown ∧
    invocations (exec pre init) 0 = length thrown + 1.
Proof.
  intros pre R. apply (loader_calls_shape pre 0 R). reflexivity.
Defined.

(** X8. A failed Resource stays failed and is not retried. Once the failure
    callback has run with [e], whatever [e] is, every later [load()]
    returns the same promise, which is rejected with [e], changes nothing,
    and does not call the loader. *)
Theorem failed_load_replays pre acts r R e :
  resources (exec pre init) !! r = Some R →
  state_of (exec pre init) R = Failed e →
  ∃ h,
    promise R = Some h ∧
    load r (exec acts (exec pre init)) =
      (exec acts (exec pre init), Returned (VPromise h)) ∧
    pstate_at (exec acts (exec pre init)) h = Settled (Rejected e) ∧
    invocations (exec acts (exec pre init)) r = invocations (exec pre init) r.
Proof.
  intros HR Hst.
  pose proof (wf_reachable pre) as Hwf. set (w := exec pre init) in *.
  destruct (promise R) as [h|] eqn:Hh;
    [|by unfold state_of in Hst; rewrite Hh in Hst].
  destruct (started_inv w r R _ Hwf HR Hh) as (p0 & st & -> & _ & Hchain).
  rewrite (state_of_chain w r R p0 st Hh Hchain) in Hst.
  assert (st = StDone (Rejected e)) as ->
    by (destruct st as [|[?|?]|[?|?]|[?|?]]; simpl in Hst; by simplify_eq).
  destruct (exec_resource acts w r R HR) as (R' & HR' & _ & Hkeep).
  exists (S (S p0)). split_and!; try done.
  - apply (load_started r _ R'); [done|]. by apply Hkeep.
  - apply exec_pstate. destruct Hchain as (_ & _ & H2 & _).
    by apply pstate_at_lookup in H2.
  - unfold invocations. by erewrite exec_calls_started.
Qed.

Lemma failed_load_replays_witness :
  let pre := [ANew (fails_with VNull); ALoad 0; ATick; ATick] in
  let acts := [ALoad 0; ARead 0; ATick; ALoad 0] in
  ∃ h,
    Some 2 = Some h ∧
    load 0 (exec acts (exec pre init)) =
      (exec acts (exec pre init), Returned (VPromise h)) ∧
    pstate_at (exec acts (exec pre init)) h = Settled (Rejected VNull) ∧
    invocations (exec acts (exec pre init)) 0 = invocations (exec pre init) 0.
Proof.
  intros pre acts.
  apply (failed_load_replays pre acts 0
           {| error := VNull; promise := Some 2; result := VNull;
              loader := fails_with VNull |} VNull);
    reflexivity.
Defined.

(** ** A fresh registry *)

(** X9. A registry made by [createResourceGroup()] starts empty, whatever
    other registries hold: its first answer for any key is a Resource that
    did not exist before, unstarted, around the loader supplied with the
    request, and never yet called. *)
Theorem fresh_registry_constructs pre id l :
  let w1 := (createResourceGroup (exec pre init)).1 in
  let g := (createResourceGroup (exec pre init)).2 in
  let r := length (resources (exec pre init)) in
  (group_get g id l w1).2 = Returned (VResource r) ∧
  resources (exec pre init) !! r = None ∧
  resources (group_get g id l w1).1 !! r = Some (new_Resource l) ∧
  invocations (group_get g id l w1).1 r = 0 ∧
  ∀ g' (tbl : gmap string nat),
    g' ≠ g → groups w1 !! g' = Some tbl →
    groups (group_get g id l w1).1 !! g' = Some tbl.
Proof.
  intros w1 g r.
  pose proof (wf_reachable pre) as Hwf. set (w := exec pre init) in *.
  assert (groups w1 !! g = Some ∅) as Hg.
  { unfold w1, g. simpl. by rewrite list_lookup_middle. }
  assert (resources w !! r = None) as Hnone
    by (apply lookup_ge_None_2; unfold r; lia).
  unfold group_get. rewrite Hg, lookup_empty. simpl.
  split_and!; try done.
  - by rewrite list_lookup_middle.
  - pose proof (wf_res w Hwf r) as Hres. unfold res_ok in Hres.
    rewrite Hnone in Hres. destruct Hres as [Hc _].
    unfold invocations. simpl. fold r. by rewrite Hc.
  - intros g' tbl Hne Hg'. by rewrite list_lookup_insert_ne.
Qed.

(** * [viewStageMachine]: the transition [PARAMETER.COMMIT] *)

Lemma prop_merge_ref p e : prop (merge_parameter p e) "ref" = prop p "ref".
Proof. unfold prop at 1, merge_parameter. by rewrite lookup_insert_eq. Qed.

Lemma lookup_merge_other p e k :
  k ≠ "ref" →
  merge_parameter p e !! k =
    match e !! k with Some v => Some v | None => p !! k end.
Proof.
  intros Hk. unfold merge_parameter. rewrite lookup_insert_ne by done.
  destruct (e !! k) as [v|] eqn:He.
  - by apply lookup_union_Some_l.
  - by apply lookup_union_r.
Qed.

Lemma prop_merge_id p e :
  prop p "id" = prop e "id" → prop (merge_parameter p e) "id" = prop p "id".
Proof.
  intros Hid. unfold prop in *. rewrite lookup_merge_other by done.
  by destruct (e !! "id").
Qed.

Lemma merge_parameter_twice p e :
  merge_parameter (merge_parameter p e) e = merge_parameter p e.
Proof.
  apply map_eq. intros k. destruct (decide (k = "ref")) as [->|Hk].
  - unfold merge_parameter at 1. rewrite lookup_insert_eq, prop_merge_ref.
    unfold merge_parameter. by rewrite lookup_insert_eq.
  - rewrite !lookup_merge_other by done. by destruct (e !! k).
Qed.

(** X10. [PARAMETER.COMMIT] keeps the list of parameters in place: same
    length, and at every position the same [id] and the same [ref] as
    before, whatever the committed parameter carries. *)
Theorem parameter_commit_keeps_id_ref ps e :
  length (parameter_commit ps e) = length ps ∧
  ∀ i p, ps !! i = Some p →
    ∃ p', parameter_commit ps e !! i = Some p' ∧
          prop p' "id" = prop p "id" ∧
          prop p' "ref" = prop p "ref".
Proof.
  unfold parameter_commit. split; [by rewrite length_fmap|].
  intros i p Hi. rewrite list_lookup_fmap, Hi. simpl.
  eexists. split; [done|]. case_decide; [|done].
  split; [by apply prop_merge_id|apply prop_merge_ref].
Qed.

(** X11. The parameter with the committed [id] takes over every property
    of the committed parameter other than [ref], and keeps its own in all
    other places; the parameters with another [id] are left untouched, so
    a commit for an [id] that no parameter has changes nothing. *)
Theorem parameter_commit_updates ps e i p :
  ps !! i = Some p →
  (prop p "id" = prop e "id" →
   ∃ p', parameter_commit ps e !! i = Some p' ∧
     ∀ k, k ≠ "ref" →
       p' !! k = match e !! k with Some v => Some v | None => p !! k end) ∧
  (prop p "id" ≠ prop e "id" → parameter_commit ps e !! i = Some p) ∧
  ((∀ q, q ∈ ps → prop q "id" ≠ prop e "id") → parameter_commit ps e = ps).
Proof.
  intros Hi. unfold parameter_commit. rewrite list_lookup_fmap, Hi. simpl.
  split_and!.
  - intros Hid. rewrite decide_True by done. eexists. split; [done|].
    intros k Hk. by apply lookup_merge_other.
  - intros Hid. by rewrite decide_False.
  - intros Hall. clear Hi. induction ps as [|q ps IH]; [done|].
    simpl. rewrite decide_False by (apply Hall; apply list_elem_of_here).
    f_equal. apply IH. intros q' Hq'. apply Hall. by apply list_elem_of_further.
Qed.

Lemma parameter_commit_updates_witness :
  let p : gmap string value :=
    {["id" := VStr "a"; "value" := VStr "old"; "ref" := VObj 1]} in
  let q : gmap string value :=
    {["id" := VStr "b"; "value" := VStr "other"; "ref" := VObj 2]} in
  let e : gmap string value :=
    {["id" := VStr "a"; "value" := VStr "new"; "completed" := VBool true]} in
  (prop p "id" = prop e "id" →
   ∃ p', parameter_commit [q; p] e !! 1 = Some p' ∧
     ∀ k, k ≠ "ref" →
       p' !! k = match e !! k with Some v => Some v | None => p !! k end) ∧
  (prop p "id" ≠ prop e "id" → parameter_commit [q; p] e !! 1 = Some p) ∧
  ((∀ q', q' ∈ [q; p] → prop q' "id" ≠ prop e "id") →
   parameter_commit [q; p] e = [q; p]).
Proof.
  intros p q e. apply (parameter_commit_updates [q; p] e 1 p). reflexivity.
Defined.

(** X12. Committing the same parameter twice is the same as committing it
    once. *)
Theorem parameter_commit_idempotent ps e :
  parameter_commit (parameter_commit ps e) e = parameter_commit ps e.
Proof.
  unfold parameter_commit. rewrite <- list_fmap_compose.
  apply list_fmap_ext. intros i p _. simpl.
  destruct (decide (prop p "id" = prop e "id")) as [Hid|Hid].
  - rewrite decide_True by (by rewrite prop_merge_id).
    apply merge_parameter_twice.
  - by rewrite decide_False.
Qed.

(** * [ColorModal/utils]: validation *)

Lemma filter_twice {A} (f : A → bool) (xs : list A) :
  List.filter f (List.filter f xs) = List.filter f xs.
Proof.
  induction xs as [|x xs IH]; [done|]. simpl.
  destruct (f x) eqn:Hx; [|done]. simpl. by rewrite Hx, IH.
Qed.

Lemma coalesce_twice {num} (a : json num) :
  coalesce (coalesce a JNull) JNull = coalesce a JNull.
Proof. by destruct a. Qed.

Lemma valid_label_color_inv {num} (falsy_num : num → bool) (x : json num) :
  valid_label_color falsy_num x = true →
  ∃ fields v c,
    x = JObj fields ∧ member x "value" = JStr v ∧ v ≠ "" ∧
    member x "color" = JStr c.
Proof.
  unfold valid_label_color. intros H.
  apply andb_prop in H as [H Hcolor]. apply andb_prop in H as [H Hne].
  apply andb_prop in H as [H Hvalue]. apply andb_prop in H as [_ Hobj].
  destruct x as [| | | | |xs|fields]; try done.
  destruct (member (JObj fields) "value") as [| | | |v| |] eqn:Hv; try done.
  destruct (member (JObj fields) "color") as [| | | |c| |] eqn:Hc; try done.
  exists fields, v, c. split_and!; try done.
  intros ->. by rewrite bool_decide_eq_true_2 in Hne.
Qed.

(** X13. What [validateLabelTags] returns for an object or an array is
    either [null] or an object with exactly the two properties
    [fieldColor] and [valueColors]; [fieldColor] is never [undefined];
    every entry of [valueColors] is an object with a non-empty string
    [value] and a string [color]; and at least one of the two is set. For
    anything else, [null] included, it returns [undefined]. *)
Theorem validateLabelTags_result {num} (falsy_num : num → bool)
    (obj : json num) :
  (isObject obj = false → validateLabelTags falsy_num obj = JUndefined) ∧
  (isObject obj = true →
   validateLabelTags falsy_num obj = JNull ∨
   ∃ fc vs,
     validateLabelTags falsy_num obj =
       JObj [("fieldColor", fc); ("valueColors", JArr vs)] ∧
     fc ≠ JUndefined ∧
     (truthy falsy_num fc = true ∨ vs ≠ []) ∧
     Forall (λ x, ∃ fields v c,
               x = JObj fields ∧ member x "value" = JStr v ∧ v ≠ "" ∧
               member x "color" = JStr c) vs).
Proof.
  split; intros Hobj.
  - by destruct obj.
  - assert (∀ o : json num, isObject o = true →
      validateLabelTags falsy_num o =
        let fieldColor := coalesce (member o "fieldColor") JNull in
        let valueColors :=
          match member o "valueColors" with
          | JArr xs => getValidLabelColors falsy_num xs
          | _ => []
          end in
        if truthy falsy_num fieldColor || (0 <? length valueColors)
        then JObj [("fieldColor", fieldColor);
                   ("valueColors", JArr valueColors)]
        else JNull) as Heq by (by intros []).
    rewrite (Heq obj Hobj). simpl.
    set (fc := coalesce (member obj "fieldColor") JNull).
    set (vs := match member obj "valueColors" with
               | JArr xs => getValidLabelColors falsy_num xs
               | _ => []
               end).
    destruct (truthy falsy_num fc || (0 <? length vs)) eqn:Hset; [|by left].
    right. exists fc, vs. split_and!; try done.
    + unfold fc. by destruct (member obj "fieldColor").
    + apply orb_prop in Hset as [Hfc|Hlen]; [by left|right].
      destruct vs; [done|done].
    + unfold vs. destruct (member obj "valueColors"); try done.
      unfold getValidLabelColors. apply Forall_forall. intros x Hx.
      apply list_elem_of_In, filter_In in Hx as [_ Hx].
      by apply (valid_label_color_inv falsy_num).
Qed.

Lemma validateLabelTags_result_witness :
  let obj : json Z :=
    JObj [("fieldColor", JStr "#ff0000");
          ("valueColors",
           JArr [JObj [("value", JStr "cat"); ("color", JStr "red")];
                 JObj [("value", JStr ""); ("color", JStr "blue")];
                 JNum 3%Z])] in
  (isObject obj = false → validateLabelTags (Z.eqb 0) obj = JUndefined) ∧
  (isObject obj = true →
   validateLabelTags (Z.eqb 0) obj = JNull ∨
   ∃ fc vs,
     validateLabelTags (Z.eqb 0) obj =
       JObj [("fieldColor", fc); ("valueColors", JArr vs)] ∧
     fc ≠ JUndefined ∧
     (truthy (Z.eqb 0) fc = true ∨ vs ≠ []) ∧
     Forall (λ x, ∃ fields v c,
               x = JObj fields ∧ member x "value" = JStr v ∧ v ≠ "" ∧
               member x "color" = JStr c) vs).
Proof.
  intros obj. apply (validateLabelTags_result (Z.eqb 0) obj).
Defined.

(** X14. Validating label tags twice is the same as validating them once:
    an object that [validateLabelTags] returns is returned unchanged when
    it is validated again. *)
Theorem validateLabelTags_fixed_point {num} (falsy_num : num → bool)
    (obj : json num) :
  isObject (validateLabelTags falsy_num obj) = true →
  validateLabelTags falsy_num (validateLabelTags falsy_num obj) =
    validateLabelTags falsy_num obj.
Proof.
  assert (∀ o : json num, isObject o = true →
    validateLabelTags falsy_num o =
      let fieldColor := coalesce (member o "fieldColor") JNull in
      let valueColors :=
        match member o "valueColors" with
        | JArr xs => getValidLabelColors falsy_num xs
        | _ => []
        end in
      if truthy falsy_num fieldColor || (0 <? length valueColors)
      then JObj [("fieldColor", fieldColor);
                 ("valueColors", JArr valueColors)]
      else JNull) as Heq by (by intros []).
  destruct (isObject obj) eqn:Hobj; [|by destruct obj].
  rewrite (Heq obj Hobj). simpl.
  set (fc := coalesce (member obj "fieldColor") JNull).
  set (vs := match member obj "valueColors" with
             | JArr xs => getValidLabelColors falsy_num xs
             | _ => []
             end).
  destruct (truthy falsy_num fc || (0 <? length vs)) eqn:Hset; [|done].
  intros _. simpl.
  assert (coalesce fc JNull = fc) as -> by apply coalesce_twice.
  assert (getValidLabelColors falsy_num vs = vs) as ->.
  { unfold vs. destruct (member obj "valueColors"); try done.
    apply filter_twice. }
  by rewrite Hset.
Qed.

Lemma validateLabelTags_fixed_point_witness :
  let obj : json Z :=
    JObj [("valueColors",
           JArr [JObj [("value", JStr "cat"); ("color", JStr "red")];
                 JObj [("value", JNum 1%Z); ("color", JStr "blue")]]);
          ("extra", JBool true)] in
  validateLabelTags (Z.eqb 0) (validateLabelTags (Z.eqb 0) obj) =
    validateLabelTags (Z.eqb 0) obj.
Proof.
  intros obj. apply (validateLabelTags_fixed_point (Z.eqb 0) obj).
  reflexivity.
Defined.

(** X15. [validateMaskColor] accepts an entry only when its [idx] is a
    string, and hands it on with a numeric [idx]. So every entry of its
    result is an object with a number [idx] and a string [color], there are
    no more of them than in the input, and validating the result again
    leaves an empty list. For anything but an array it returns [null]. *)
Theorem validateMaskColor_result {num} (falsy_num : num → bool)
    (Number : json num → num) (arr : json num) :
  match arr with
  | JArr xs =>
      ∃ ys,
        validateMaskColor falsy_num Number arr = JArr ys ∧
        length ys ≤ length xs ∧
        Forall (λ y, ∃ n c, y = JObj [("idx", JNum n); ("color", JStr c)]) ys ∧
        validateMaskColor falsy_num Number (JArr ys) = JArr []
  | _ => validateMaskColor falsy_num Number arr = JNull
  end.
Proof.
  destruct arr as [| | | | |xs|fields]; try done.
  exists (getValidMaskColors falsy_num Number xs). split; [done|].
  assert (Forall (λ y, ∃ n c, y = JObj [("idx", JNum n); ("color", JStr c)])
            (getValidMaskColors falsy_num Number xs)) as Hall.
  { unfold getValidMaskColors. apply Forall_forall. intros y Hy.
    apply list_elem_of_In, in_map_iff in Hy as (x & <- & Hx).
    apply filter_In in Hx as [_ Hx]. unfold valid_mask_color in Hx.
    apply andb_prop in Hx as [_ Hc].
    destruct (member x "color") as [| | | |c| |]; try done.
    by eexists _, c. }
  split_and!; try done.
  - unfold getValidMaskColors. rewrite length_map. apply filter_length_le.
  - simpl. f_equal. unfold getValidMaskColors at 1.
    replace (List.filter (valid_mask_color falsy_num)
               (getValidMaskColors falsy_num Number xs)) with (@nil (json num));
      [done|].
    induction Hall as [|y ys (n & c & ->) _ IH]; [done|].
    simpl. unfold valid_mask_color at 1. simpl. exact IH.
Qed.

Lemma filter_attempt_throws {A} (f : A → attempt bool) (xs : list A) x :
  x ∈ xs → f x = TypeError → filter_attempt f xs = TypeError.
Proof.
  intros Hin Hx. induction xs as [|y ys IH]; [by apply elem_of_nil in Hin|].
  apply elem_of_cons in Hin as [<-|Hin]; simpl.
  - by rewrite Hx.
  - rewrite (IH Hin). by destruct (f y).
Qed.

Lemma map_attempt_throws {A B} (f : A → attempt B) (xs : list A) x :
  x ∈ xs → f x = TypeError → map_attempt f xs = TypeError.
Proof.
  intros Hin Hx. induction xs as [|y ys IH]; [by apply elem_of_nil in Hin|].
  apply elem_of_cons in Hin as [<-|Hin]; simpl.
  - by rewrite Hx.
  - rewrite (IH Hin). by destruct (f y).
Qed.

Lemma map_attempt_done {A B} (f : A → attempt B) (xs : list A) ys :
  map_attempt f xs = Done ys → Forall2 (λ x y, f x = Done y) xs ys.
Proof.
  revert ys. induction xs as [|x xs IH]; intros ys H; simpl in H.
  - simplify_eq. constructor.
  - destruct (f x) as [y|] eqn:Hx; [|done]. simpl in H.
    destruct (map_attempt f xs) as [ys'|]; [|done]. simpl in H.
    simplify_eq. constructor; [done|]. by apply IH.
Qed.

Lemma getValidColorscale_done {num} (ext : Externals num) xs ys :
  getValidColorscale ext xs = Done ys →
  Forall (λ y, ∃ v c, y = JObj [("value", JNum v); ("color", JStr c)]) ys.
Proof.
  unfold getValidColorscale. intros H.
  destruct (filter_attempt (valid_sample ext) xs) as [r|]; [|done].
  simpl in H. apply map_attempt_done in H.
  induction H as [|x y r ys Hxy _ IH]; constructor; [|done].
  unfold convert_sample in Hxy.
  destruct (get_rgb ext (member x "color")) as [[[a b] c]|]; [|done].
  simplify_eq. by eexists _, _.
Qed.

(** X16. [validateColorscale] throws a [TypeError] on [null], and on an
    object whose [list] is an array with a [null] in it. When it returns,
    it returns an object with exactly the properties [name] and [list]:
    [name] is [null] or one of the named colour scales, and [list] is
    [null] or an array of objects with a number [value] and a string
    [color]. *)
Theorem validateColorscale_result {num} (ext : Externals num)
    (obj : json num) :
  validateColorscale ext JNull = TypeError ∧
  (∀ fields xs,
     obj = JObj fields → member obj "list" = JArr xs → JNull ∈ xs →
     validateColorscale ext obj = TypeError) ∧
  (∀ r, validateColorscale ext obj = Done r →
     ∃ name list,
       r = JObj [("name", name); ("list", list)] ∧
       (name = JNull ∨ ∃ s, name = JStr s ∧ s ∈ namedColorScales) ∧
       (list = JNull ∨
        ∃ ys, list = JArr ys ∧
          Forall (λ y, ∃ v c,
                    y = JObj [("value", JNum v); ("color", JStr c)]) ys)).
Proof.
  split_and!.
  - done.
  - intros fields xs -> Hlist Hnull. unfold validateColorscale. simpl.
    simpl in Hlist. rewrite Hlist. simpl.
    unfold getValidColorscale.
    by rewrite (filter_attempt_throws _ xs JNull Hnull).
  - intros r. unfold validateColorscale.
    destruct (typeof_object obj) eqn:Hobj; simpl.
    + destruct (member_of obj "name") as [name|] eqn:Hname; [|done]. simpl.
      destruct (member_of obj "list") as [list|] eqn:Hlist; [|done]. simpl.
      set (name' := match name with
                    | JStr s =>
                        if bool_decide (s ∈ namedColorScales)
                        then name else JNull
                    | _ => JNull
                    end).
      assert (name' = JNull ∨ ∃ s, name' = JStr s ∧ s ∈ namedColorScales)
        as Hname'.
      { unfold name'. destruct name as [| | | |s| |]; auto.
        case_bool_decide; [|by left]. right. by exists s. }
      destruct list as [| | | | |xs|]; simpl; intros H; simplify_eq;
        try (eexists _, _; split_and!; [done|done|by left]).
      destruct (getValidColorscale ext xs) as [ys|] eqn:Hys; [|done].
      simpl in H. simplify_eq. eexists _, _. split_and!; [done|done|].
      right. exists ys. split; [done|]. by eapply getValidColorscale_done.
    + intros H. simplify_eq. eexists _, _. split_and!; [done|by left..].
Qed.

Lemma validateColorscale_result_witness :
  let obj : json Z :=
    JObj [("name", JStr "viridis");
          ("list", JArr [JObj [("value", JNum 0%Z); ("color", JStr "red")];
                         JNull])] in
  validateColorscale demo_ext JNull = TypeError ∧
  (∀ fields xs,
     obj = JObj fields → member obj "list" = JArr xs → JNull ∈ xs →
     validateColorscale demo_ext obj = TypeError) ∧
  (∀ r, validateColorscale demo_ext obj = Done r →
     ∃ name list,
       r = JObj [("name", name); ("list", list)] ∧
       (name = JNull ∨ ∃ s, name = JStr s ∧ s ∈ namedColorScales) ∧
       (list = JNull ∨
        ∃ ys, list = JArr ys ∧
          Forall (λ y, ∃ v c,
                    y = JObj [("value", JNum v); ("color", JStr c)]) ys)).
Proof.
  intros obj. apply (validateColorscale_result demo_ext obj).
Defined.

(** X17. [validateJSONSetting] throws a [TypeError], instead of returning a
    list, when some entry of the array that is an object with a string
    [path] has [colorscale: null]; and when its argument is neither
    [null], [undefined] nor an array. *)
Theorem validateJSONSetting_throws {num} (ext : Externals num)
    (fields : json num) :
  (∀ xs x,
     fields = JArr xs → x ∈ xs →
     isObject x = true → isString (member x "path") = true →
     member x "colorscale" = JNull →
     validateJSONSetting ext fields = TypeError) ∧
  (typeof_object fields = false → fields ≠ JUndefined →
   validateJSONSetting ext fields = TypeError) ∧
  (∀ o, fields = JObj o → validateJSONSetting ext fields = TypeError).
Proof.
  split_and!.
  - intros xs x -> Hin Hobj Hpath Hcs. unfold validateJSONSetting. simpl.
    rewrite (map_attempt_throws _ _ x); [done| |].
    + apply list_elem_of_In, filter_In. split; [by apply list_elem_of_In|].
      rewrite Hobj, Hpath. by destruct x.
    + unfold validate_field. by rewrite Hcs.
  - by destruct fields.
  - by intros o ->.
Qed.

Lemma validateJSONSetting_throws_witness :
  let x : json Z :=
    JObj [("path", JStr "ground_truth"); ("fieldColor", JStr "#ff0000");
          ("colorscale", JNull)] in
  validateJSONSetting demo_ext (JArr [x]) = TypeError.
Proof.
  intros x.
  apply (proj1 (validateJSONSetting_throws demo_ext (JArr [x])) [x] x);
    try reflexivity.
  apply list_elem_of_here.
Defined.

Lemma validate_field_done {num} (ext : Externals num) (x y : json num) :
  isString (member x "path") = true →
  validate_field ext x = Done y →
  ∃ p fc cba vs ms cs,
    y = field_setting p fc cba vs ms cs ∧
    member x "path" = JStr p ∧
    fc ≠ JUndefined ∧
    (cba = JNull ∨ isString cba = true) ∧
    (ms = [] ∨ ∃ xs, member x "maskTargetsColors" = JArr xs).
Proof.
  intros Hpath. unfold validate_field.
  destruct (validateColorscale ext (member x "colorscale")) as [cs|]; [|done].
  simpl. intros H. simplify_eq.
  destruct (member x "path") as [| | | |p| |] eqn:Hp; try done.
  exists p, (coalesce (member x "fieldColor") JNull),
    (if isString (member x "colorByAttribute")
     then member x "colorByAttribute" else JNull),
    (match member x "valueColors" with
     | JArr xs => getValidLabelColors (falsy_num ext) xs
     | _ => []
     end),
    (match member x "maskTargetsColors" with
     | JArr xs => getValidMaskColors (falsy_num ext) (Number ext) xs
     | _ => []
     end), cs.
  split_and!.
  - unfold field_setting.
    by destruct (member x "valueColors"), (member x "maskTargetsColors").
  - done.
  - by destruct (member x "fieldColor").
  - destruct (isString (member x "colorByAttribute")) eqn:Hc; auto.
  - destruct (member x "maskTargetsColors"); eauto.
Qed.

Lemma first_filter_facts {num} (ext : Externals num) (fields : json num) :
  length (first_filter ext fields) ≤ array_length fields ∧
  Forall (λ x, isString (member x "path") = true ∧
               ∃ xs, fields = JArr xs ∧ x ∈ xs) (first_filter ext fields).
Proof.
  destruct fields as [| | | | |xs|o]; simpl; try (split; [lia|constructor]).
  split; [apply filter_length_le|].
  apply Forall_forall. intros x Hx.
  apply list_elem_of_In, filter_In in Hx as [Hin Hx].
  apply andb_prop in Hx as [_ Hx]. split; [done|].
  exists xs. split; [done|]. by apply list_elem_of_In.
Qed.

Lemma validateJSONSetting_done {num} (ext : Externals num)
    (fields : json num) out :
  validateJSONSetting ext fields = Done out →
  ∃ f,
    Forall2 (λ x y, validate_field ext x = Done y)
      (first_filter ext fields) f ∧
    out = List.filter (has_setting ext) f.
Proof.
  unfold validateJSONSetting. intros H.
  assert (∀ filtered,
    and_then (map_attempt (validate_field ext) filtered)
      (λ f, Done (List.filter (has_setting ext) f)) = Done out →
    ∃ f, Forall2 (λ x y, validate_field ext x = Done y) filtered f ∧
         out = List.filter (has_setting ext) f) as Hmap.
  { intros filtered Hf.
    destruct (map_attempt (validate_field ext) filtered) as [f|] eqn:Hm;
      [|done].
    simpl in Hf. simplify_eq. exists f. split; [|done].
    by apply map_attempt_done. }
  destruct fields as [| | | | |xs|o]; simpl in H; try done; by apply Hmap.
Qed.

(** Every entry of a result comes from an entry of the array handed in
    that has a string [path]. *)
Lemma validateJSONSetting_entry {num} (ext : Externals num)
    (fields : json num) out y :
  validateJSONSetting ext fields = Done out → y ∈ out →
  has_setting ext y = true ∧
  ∃ xs x, fields = JArr xs ∧ x ∈ xs ∧
          isString (member x "path") = true ∧
          validate_field ext x = Done y.
Proof.
  intros H Hy.
  destruct (validateJSONSetting_done ext fields out H) as (f & Hf & ->).
  apply list_elem_of_In, filter_In in Hy as [Hy Hset].
  split; [done|]. apply list_elem_of_In in Hy.
  destruct (proj1 (list_elem_of_lookup f y) Hy) as [i Hi].
  destruct (Forall2_lookup_r _ _ _ _ _ Hf Hi) as (x & Hx & Hxy).
  destruct (first_filter_facts ext fields) as [_ Hall].
  rewrite Forall_forall in Hall.
  destruct (Hall x) as (Hpath & xs & -> & Hin);
    [by eapply list_elem_of_lookup_2|].
  by exists xs, x.
Qed.

(** X18. Every entry of the list [validateJSONSetting] returns is an object
    with the six properties [path], [fieldColor], [colorByAttribute],
    [valueColors], [targetMasksColors] and [colorscale]; its [path] is a
    string, its [fieldColor] is never [undefined], its [colorByAttribute]
    is a string or [null], and it sets at least one thing. The list is no
    longer than the array handed in, and empty for [null] and
    [undefined]. *)
Theorem validateJSONSetting_result {num} (ext : Externals num)
    (fields : json num) out :
  validateJSONSetting ext fields = Done out →
  length out ≤ array_length fields ∧
  Forall (λ y, ∃ p fc cba vs ms cs,
            y = field_setting p fc cba vs ms cs ∧
            fc ≠ JUndefined ∧
            (cba = JNull ∨ isString cba = true) ∧
            has_setting ext y = true) out.
Proof.
  intros H. split.
  - destruct (validateJSONSetting_done ext fields out H) as (f & Hf & ->).
    pose proof (filter_length_le (has_setting ext) f) as Hle.
    apply Forall2_length in Hf.
    destruct (first_filter_facts ext fields) as [Hlen _]. lia.
  - apply Forall_forall. intros y Hy.
    destruct (validateJSONSetting_entry ext fields out y H Hy)
      as (Hset & xs & x & _ & _ & Hpath & Hxy).
    destruct (validate_field_done ext x y Hpath Hxy) as
      (p & fc & cba & vs & ms & cs & -> & _ & Hfc & Hcba & _).
    by exists p, fc, cba, vs, ms, cs.
Qed.

Lemma validateJSONSetting_result_witness :
  let x : json Z :=
    JObj [("path", JStr "ground_truth"); ("fieldColor", JStr "#ff0000")] in
  let y : json Z :=
    JObj [("path", JStr "predictions"); ("fieldColor", JStr "")] in
  let out : list (json Z) :=
    [field_setting "ground_truth" (JStr "#ff0000") JNull [] []
       (JObj [("name", JNull); ("list", JNull)])] in
  length out ≤ array_length (JArr [x; y; JNum 4%Z]) ∧
  Forall (λ y, ∃ p fc cba vs ms cs,
            y = field_setting p fc cba vs ms cs ∧
            fc ≠ JUndefined ∧
            (cba = JNull ∨ isString cba = true) ∧
            has_setting demo_ext y = true) out.
Proof.
  intros x y out.
  apply (validateJSONSetting_result demo_ext (JArr [x; y; JNum 4%Z]) out).
  reflexivity.
Defined.

Lemma validate_field_masks {num} (ext : Externals num) (x y : json num) :
  isString (member x "path") = true →
  validate_field ext x = Done y →
  member y "maskTargetsColors" = JUndefined ∧
  member y "targetMasksColors" =
    JArr match member x "maskTargetsColors" with
         | JArr ms => getValidMaskColors (falsy_num ext) (Number ext) ms
         | _ => []
         end.
Proof.
  intros Hpath. unfold validate_field.
  destruct (validateColorscale ext (member x "colorscale")) as [cs|]; [|done].
  simpl. intros H. simplify_eq.
  split; [done|]. by destruct (member x "maskTargetsColors").
Qed.

(** X19. [validateJSONSetting] reads the mask colours of an entry from its
    property [maskTargetsColors] and writes them under another name,
    [targetMasksColors]. Every entry it returns carries, under
    [targetMasksColors], the validated mask colours that the entry it was
    built from lists under [maskTargetsColors] (none when that is not an
    array, whatever the entry holds under [targetMasksColors]), and has no
    property [maskTargetsColors] itself. So a second validation of the
    returned list finds no mask colours to read, and every entry of its
    result has an empty [targetMasksColors]. *)
Theorem validateJSONSetting_mask_keys {num} (ext : Externals num)
    (fields : json num) out :
  validateJSONSetting ext fields = Done out →
  Forall (λ y,
    member y "maskTargetsColors" = JUndefined ∧
    ∃ xs x,
      fields = JArr xs ∧ x ∈ xs ∧
      member y "path" = member x "path" ∧
      member y "targetMasksColors" =
        JArr match member x "maskTargetsColors" with
             | JArr ms => getValidMaskColors (falsy_num ext) (Number ext) ms
             | _ => []
             end) out ∧
  ∀ out2,
    validateJSONSetting ext (JArr out) = Done out2 →
    Forall (λ z, member z "targetMasksColors" = JArr []) out2.
Proof.
  intros H.
  assert (∀ y, y ∈ out →
    member y "maskTargetsColors" = JUndefined ∧
    ∃ xs x,
      fields = JArr xs ∧ x ∈ xs ∧
      member y "path" = member x "path" ∧
      member y "targetMasksColors" =
        JArr match member x "maskTargetsColors" with
             | JArr ms => getValidMaskColors (falsy_num ext) (Number ext) ms
             | _ => []
             end) as Hkeys.
  { intros y Hy.
    destruct (validateJSONSetting_entry ext fields out y H Hy)
      as (_ & xs & x & -> & Hx & Hpath & Hxy).
    destruct (validate_field_masks ext x y Hpath Hxy) as [Hread Hwrite].
    split; [done|]. exists xs, x. split_and!; try done.
    destruct (validate_field_done ext x y Hpath Hxy) as
      (p & fc & cba & vs & ms & cs & -> & -> & _). done. }
  split; [by apply Forall_forall|].
  intros out2 H2. apply Forall_forall. intros z Hz.
  destruct (validateJSONSetting_entry ext _ out2 z H2 Hz)
    as (_ & ys & y & Hys & Hy & Hpath2 & Hyz).
  simplify_eq.
  destruct (Hkeys y Hy) as [Hnone _].
  destruct (validate_field_masks ext y z Hpath2 Hyz) as [_ Hwrite].
  by rewrite Hnone in Hwrite.
Qed.

Lemma validateJSONSetting_mask_keys_witness :
  let x : json Z :=
    JObj [("path", JStr "segmentation");
          ("maskTargetsColors",
           JArr [JObj [("idx", JStr "0"); ("color", JStr "#ff0000")]])] in
  let y : json Z :=
    JObj [("path", JStr "ground_truth"); ("fieldColor", JStr "#00ff00");
          ("targetMasksColors",
           JArr [JObj [("idx", JStr "0"); ("color", JStr "#0000ff")]])] in
  let out : list (json Z) :=
    [field_setting "segmentation" JNull JNull []
       [JObj [("idx", JNum 0%Z); ("color", JStr "#ff0000")]]
       (JObj [("name", JNull); ("list", JNull)]);
     field_setting "ground_truth" (JStr "#00ff00") JNull [] []
       (JObj [("name", JNull); ("list", JNull)])] in
  Forall (λ y',
    member y' "maskTargetsColors" = JUndefined ∧
    ∃ xs x',
      JArr [x; y] = JArr xs ∧ x' ∈ xs ∧
      member y' "path" = member x' "path" ∧
      member y' "targetMasksColors" =
        JArr match member x' "maskTargetsColors" with
             | JArr ms =>
                 getValidMaskColors (falsy_num demo_ext) (Number demo_ext) ms
             | _ => []
             end) out ∧
  ∀ out2,
    validateJSONSetting demo_ext (JArr out) = Done out2 →
    Forall (λ z, member z "targetMasksColors" = JArr []) out2.
Proof.
  intros x y out.
  apply (validateJSONSetting_mask_keys demo_ext (JArr [x; y]) out).
  reflexivity.
Defined.
